(** * Equality-constrained quadratic programming:
      a model of [EqualityConstrainedQPSolver::Solve]
      (drake/solvers/equality_constrained_qp_solver.cc).

    The solver assembles dense matrices [G], [c], [A], [b] from the cost and
    constraint bindings of a [MathematicalProgram] and solves the KKT system

        | G  A' | | x |   | -c |
        | A  0  | | y | = |  b |

    either through the Schur complement (when the Cholesky factorisation of
    [G] succeeds) or through one least-squares solve of the full system.

    Scalars ([double] in the source) are the elements of an ordered field
    [F]: the development is about the algorithm in exact arithmetic.  The
    Eigen decompositions are not part of the repository; they are the
    fields of an [EigenBackend], and the theorems that need their contracts
    take them as hypotheses. *)

From HB Require Import structures.
From mathcomp Require Import boot order algebra.
From mathcomp Require Import ring lra.

Set Implicit Arguments.
Unset Strict Implicit.
Unset Printing Implicit Defensive.

Import GRing.Theory Num.Theory Order.Theory.
Local Open Scope ring_scope.

(** ** Enumerations of the surrounding framework *)

(** [Eigen::ComputationInfo], the status a decomposition reports. *)
Variant ComputationInfo : Set :=
  Success | NumericalIssue | NoConvergence | InvalidInput.

(** Modelled from the spec: the declaration of [SolutionResult]
    (mathematical_program.h) is missing; the spec names a solution-found
    outcome and says that the framework also knows failure, infeasible and
    unbounded outcomes, none of which this solver produces. *)
Variant SolutionResult : Set :=
  kSolutionFound | kInvalidInput | kInfeasibleConstraints | kUnbounded
| kUnknownError.

(** Modelled from the spec: the declaration of [SolverType] is missing; only
    the tag that this solver stamps on the program and the tag of the
    IPOPT wrapper (the other solver of the repository) are kept. *)
Variant SolverType : Set := kEqualityConstrainedQP | kIpopt.

(** ** Dense matrices with run-time indices

    Eigen addresses coefficients and blocks by integers.  A read or a write
    outside the matrix is undefined behaviour in the source; here a read
    gives [0] and a write is dropped. *)
Section Dense.

Variable R : nmodType.

Definition coeff m n (M : 'M[R]_(m, n)) (i j : nat) : R :=
  match insub i, insub j with
  | Some i', Some j' => M i' j'
  | _, _ => 0
  end.

(** [M(r, c) += q] *)
Definition add_coeff m n (M : 'M[R]_(m, n)) (r c : nat) (q : R) :
  'M[R]_(m, n) :=
  \matrix_(i, j) (if (i == r :> nat) && (j == c :> nat) then M i j + q
                  else M i j).

(** [M.block(r0, c0, p, q) = B] *)
Definition set_block m n p q (M : 'M[R]_(m, n)) (r0 c0 : nat)
    (B : 'M[R]_(p, q)) : 'M[R]_(m, n) :=
  \matrix_(i, j)
    (if [&& (r0 <= i)%N, (i < r0 + p)%N, (c0 <= j)%N & (j < c0 + q)%N]
     then coeff B (i - r0)%N (j - c0)%N else M i j).

(** [M.block(r0, c0, p, q)], read *)
Definition block m n (M : 'M[R]_(m, n)) (r0 c0 p q : nat) : 'M[R]_(p, q) :=
  \matrix_(i, j) coeff M (r0 + i)%N (c0 + j)%N.

(** [v.segment(start, len)], read *)
Definition segment m (v : 'cV[R]_m) (start len : nat) : 'cV[R]_len :=
  block v start 0%N len 1%N.

(** [v.segment(start, len) = w] *)
Definition set_segment m len (v : 'cV[R]_m) (start : nat) (w : 'cV[R]_len) :
  'cV[R]_m :=
  set_block v start 0%N w.

End Dense.

Section Model.

(** [double], in exact arithmetic. *)
Variable F : realFieldType.

(** The type of decision variables ([DecisionVariableScalar]). *)
Variable Var : Type.

(** ** Bindings *)

(** A binding of a [QuadraticConstraint]: the cost [1/2 z' Q z + b' z] over
    the variables [z] it is bound to. *)
Record QuadraticCostBinding : Type := {
  qc_size : nat;
  Q : 'M[F]_qc_size;
  qc_b : 'cV[F]_qc_size;
  qc_variables : 'cV[Var]_qc_size
}.

(** A binding of a [LinearEqualityConstraint]: [A z = lower_bound]
    (the upper bound is the same vector). *)
Record LinearEqualityBinding : Type := {
  le_rows : nat;
  le_size : nat;
  le_A : 'M[F]_(le_rows, le_size);
  lower_bound : 'cV[F]_le_rows;
  le_variables : 'cV[Var]_le_size
}.

(** A binding of a kind this solver does not support; only the emptiness of
    the collections of such bindings is ever looked at. *)
Variant UnsupportedBinding : Set := unsupported_binding.

(** ** The program *)

Record MathematicalProgram (num_vars : nat) : Type := {
  generic_constraints : seq UnsupportedBinding;
  generic_costs : seq UnsupportedBinding;
  linear_constraints : seq UnsupportedBinding;
  bounding_box_constraints : seq UnsupportedBinding;
  linear_complementarity_constraints : seq UnsupportedBinding;
  quadratic_costs : seq QuadraticCostBinding;
  linear_equality_constraints : seq LinearEqualityBinding;
  FindDecisionVariableIndex : Var -> nat;
  (* what a solver writes back *)
  decision_variable_values : 'cV[F]_num_vars;
  optimal_cost : F;
  solver_result : option (SolverType * int)
}.

Section Setters.

Variable n : nat.
Implicit Type prog : MathematicalProgram n.

Definition SetDecisionVariableValues prog (x : 'cV[F]_n) :=
  {| generic_constraints := generic_constraints prog;
     generic_costs := generic_costs prog;
     linear_constraints := linear_constraints prog;
     bounding_box_constraints := bounding_box_constraints prog;
     linear_complementarity_constraints :=
       linear_complementarity_constraints prog;
     quadratic_costs := quadratic_costs prog;
     linear_equality_constraints := linear_equality_constraints prog;
     FindDecisionVariableIndex := FindDecisionVariableIndex prog;
     decision_variable_values := x;
     optimal_cost := optimal_cost prog;
     solver_result := solver_result prog |}.

Definition SetOptimalCost prog (cost : F) :=
  {| generic_constraints := generic_constraints prog;
     generic_costs := generic_costs prog;
     linear_constraints := linear_constraints prog;
     bounding_box_constraints := bounding_box_constraints prog;
     linear_complementarity_constraints :=
       linear_complementarity_constraints prog;
     quadratic_costs := quadratic_costs prog;
     linear_equality_constraints := linear_equality_constraints prog;
     FindDecisionVariableIndex := FindDecisionVariableIndex prog;
     decision_variable_values := decision_variable_values prog;
     optimal_cost := cost;
     solver_result := solver_result prog |}.

Definition SetSolverResult prog (solver : SolverType) (code : int) :=
  {| generic_constraints := generic_constraints prog;
     generic_costs := generic_costs prog;
     linear_constraints := linear_constraints prog;
     bounding_box_constraints := bounding_box_constraints prog;
     linear_complementarity_constraints :=
       linear_complementarity_constraints prog;
     quadratic_costs := quadratic_costs prog;
     linear_equality_constraints := linear_equality_constraints prog;
     FindDecisionVariableIndex := FindDecisionVariableIndex prog;
     decision_variable_values := decision_variable_values prog;
     optimal_cost := optimal_cost prog;
     solver_result := Some (solver, code) |}.

End Setters.

(** ** The Eigen decompositions the solver calls

    [LLT_info G] is [llt.info()] after [Eigen::LLT<MatrixXd> llt(G)];
    [LLT_solve G B] is [llt.solve(B)];
    [QR_solve S r] is [FullPivHouseholderQR<MatrixXd>(S).solve(r)];
    [SVD_solve M r] is [M.jacobiSvd(ComputeThinU | ComputeThinV).solve(r)];
    [uninitialized p q] is the content of a matrix that was declared with
    its sizes only. *)
Record EigenBackend : Type := {
  LLT_info : forall n, 'M[F]_n -> ComputationInfo;
  LLT_solve : forall n p, 'M[F]_n -> 'M[F]_(n, p) -> 'M[F]_(n, p);
  QR_solve : forall m p, 'M[F]_m -> 'M[F]_(m, p) -> 'M[F]_(m, p);
  SVD_solve : forall k, 'M[F]_k -> 'cV[F]_k -> 'cV[F]_k;
  uninitialized : forall p q, 'M[F]_(p, q)
}.

(** [x.dot(y)] *)
Definition dot n (x y : 'cV[F]_n) : F := \sum_i x i 0 * y i 0.

Section Solve.

Variable E : EigenBackend.
Variable n : nat.
Implicit Type prog : MathematicalProgram n.

(** *** Assembly *)

(** The first loop: the total number of constraint rows. *)
Definition num_constraints prog : nat :=
  foldl (fun acc binding => acc + le_rows binding) 0%N
        (linear_equality_constraints prog).

(** The body of the loop over [prog.quadratic_costs()]. *)
Definition add_quadratic_cost prog (Gc : 'M[F]_n * 'cV[F]_n)
    (binding : QuadraticCostBinding) : 'M[F]_n * 'cV[F]_n :=
  let num_v_variables := enum 'I_(qc_size binding) in
  let v_index :=
    [seq FindDecisionVariableIndex prog (qc_variables binding i 0)
    | i <- num_v_variables] in
  foldl (fun Gc (i : 'I_(qc_size binding)) =>
           let G :=
             foldl (fun G (j : 'I_(qc_size binding)) =>
                      add_coeff G (nth 0%N v_index i) (nth 0%N v_index j)
                                (Q binding i j))
                   Gc.1 num_v_variables in
           (G, add_coeff Gc.2 (nth 0%N v_index i) 0%N (qc_b binding i 0)))
        Gc num_v_variables.

(** "Setup the quadratic cost matrix and linear cost vector." *)
Definition assemble_costs prog : 'M[F]_n * 'cV[F]_n :=
  foldl (add_quadratic_cost prog) (0, 0) (quadratic_costs prog).

(** The body of the loop over [prog.linear_equality_constraints()]; the
    third component of the state is [constraint_index]. *)
Definition add_linear_equality prog m
    (Abi : 'M[F]_(m, n) * 'cV[F]_m * nat) (binding : LinearEqualityBinding) :
    'M[F]_(m, n) * 'cV[F]_m * nat :=
  let: (A, b, constraint_index) := Abi in
  let n_rows := le_rows binding in
  let A' :=
    foldl (fun A (i : 'I_(le_size binding)) =>
             set_block A constraint_index
               (FindDecisionVariableIndex prog (le_variables binding i 0))
               (col i (le_A binding)))
          A (enum 'I_(le_size binding)) in
  let b' :=
    set_segment b constraint_index (segment (lower_bound binding) 0%N n_rows) in
  (A', b', (constraint_index + n_rows)%N).

(** "Setup the linear constraints." *)
Definition assemble_constraints prog :
    'M[F]_(num_constraints prog, n) * 'cV[F]_(num_constraints prog) :=
  (foldl (@add_linear_equality prog (num_constraints prog)) (0, 0, 0%N)
         (linear_equality_constraints prog)).1.

(** *** The two ways through the KKT system *)

(** Approach (2), the range space: [x] and the multipliers [lambda]. *)
Definition range_space m (G : 'M[F]_n) (c : 'cV[F]_n) (A : 'M[F]_(m, n))
    (b : 'cV[F]_m) : 'cV[F]_n * 'cV[F]_m :=
  let AiG_T := LLT_solve E G A^T in
  let lambda := QR_solve E (A *m AiG_T) (AiG_T^T *m c + b) in
  let x := LLT_solve E G (A^T *m lambda - c) in
  (x, lambda).

(** Approach (1): the big matrix and the right hand side vector. *)
Definition A_full m (G : 'M[F]_n) (A : 'M[F]_(m, n)) : 'M[F]_(n + m) :=
  let A_full := uninitialized E (n + m) (n + m) in
  let A_full := set_block A_full 0%N 0%N G in
  let A_full := set_block A_full 0%N n (- A^T) in
  let A_full := set_block A_full n 0%N A in
  set_block A_full n n (0 : 'M[F]_(m, m)).

Definition b_full m (c : 'cV[F]_n) (b : 'cV[F]_m) : 'cV[F]_(n + m) :=
  let b_full := uninitialized E (n + m) 1 in
  let b_full := set_segment b_full 0%N (- c) in
  set_segment b_full n b.

Definition full_system m (G : 'M[F]_n) (c : 'cV[F]_n) (A : 'M[F]_(m, n))
    (b : 'cV[F]_m) : 'cV[F]_n :=
  let sol := SVD_solve E (A_full G A) (b_full c b) in
  segment sol 0%N n.

(** The five [DRAKE_ASSERT]s at the head of [Solve]. *)
Definition supported prog : bool :=
  [&& nilp (generic_constraints prog), nilp (generic_costs prog),
      nilp (linear_constraints prog), nilp (bounding_box_constraints prog)
    & nilp (linear_complementarity_constraints prog)].

(** [Solve]: [None] is a failed assertion (the assertions are armed). *)
Definition Solve prog : option (SolutionResult * MathematicalProgram n) :=
  if ~~ supported prog then None else
  let: (G, c) := assemble_costs prog in
  let: (A, b) := assemble_constraints prog in
  if LLT_info E G is Success then
    let x := (range_space G c A b).1 in
    let prog := SetDecisionVariableValues prog x in
    let optimal_cost := 2%:R^-1 * dot x (G *m x + c) in
    let prog := SetOptimalCost prog optimal_cost in
    let prog := SetSolverResult prog kEqualityConstrainedQP 0 in
    Some (kSolutionFound, prog)
  else
    let x := full_system G c A b in
    let prog := SetDecisionVariableValues prog x in
    let optimal_cost := 2%:R^-1 * dot x (G *m x + c) in
    let prog := SetOptimalCost prog optimal_cost in
    let prog := SetSolverResult prog kEqualityConstrainedQP 0 in
    Some (kSolutionFound, prog).

End Solve.

(** ** Notions the properties are stated with *)

(** The objective of the quadratic program, [1/2 x' G x + c' x]. *)
Definition objective n (G : 'M[F]_n) (c x : 'cV[F]_n) : F :=
  2%:R^-1 * dot x (G *m x) + dot c x.

(** The matrix [Eigen::LLT] factors: it reads the lower triangle of its
    argument only (the [Lower] default) and takes the rest by symmetry. *)
Definition selfadjoint_lower n (G : 'M[F]_n) : 'M[F]_n :=
  \matrix_(i, j) (if (j <= i)%N then G i j else G j i).

Definition symmetric n (G : 'M[F]_n) : Prop := G^T = G.

Definition positive_definite n (G : 'M[F]_n) : Prop :=
  forall x : 'cV[F]_n, x != 0 -> 0 < dot x (G *m x).

(** The problem a program assembles to; [as_m] is the number of rows. *)
Record Assembled (n : nat) : Type := {
  as_m : nat;
  as_G : 'M[F]_n;
  as_c : 'cV[F]_n;
  as_A : 'M[F]_(as_m, n);
  as_b : 'cV[F]_as_m
}.

Definition assemble n (prog : MathematicalProgram n) : Assembled n :=
  {| as_m := num_constraints prog;
     as_G := (assemble_costs prog).1;
     as_c := (assemble_costs prog).2;
     as_A := (assemble_constraints prog).1;
     as_b := (assemble_constraints prog).2 |}.

(** The point either strategy computes for an assembled problem. *)
Definition kkt_point (E : EigenBackend) n (P : Assembled n) : 'cV[F]_n :=
  if LLT_info E (as_G P) is Success
  then (range_space E (as_G P) (as_c P) (as_A P) (as_b P)).1
  else full_system E (as_G P) (as_c P) (as_A P) (as_b P).

(** *** Contracts of the decompositions, in exact arithmetic *)

(** The Cholesky factorisation succeeds on a positive definite matrix ... *)
Definition LLT_complete (E : EigenBackend) : Prop :=
  forall n (G : 'M[F]_n),
    positive_definite (selfadjoint_lower G) -> LLT_info E G = Success.

(** ... and only there (a pivot that is not positive stops it). *)
Definition LLT_sound (E : EigenBackend) : Prop :=
  forall n (G : 'M[F]_n),
    LLT_info E G = Success -> positive_definite (selfadjoint_lower G).

(** After a successful factorisation [solve] solves the system. *)
Definition LLT_solves (E : EigenBackend) : Prop :=
  forall n p (G : 'M[F]_n) (B : 'M[F]_(n, p)),
    LLT_info E G = Success -> selfadjoint_lower G *m LLT_solve E G B = B.

(** The least-squares solvers solve a nonsingular system. *)
Definition QR_solves (E : EigenBackend) : Prop :=
  forall m p (S : 'M[F]_m) (r : 'M[F]_(m, p)),
    S \in unitmx -> S *m QR_solve E S r = r.

Definition SVD_solves (E : EigenBackend) : Prop :=
  forall k (S : 'M[F]_k) (r : 'cV[F]_k),
    S \in unitmx -> S *m SVD_solve E S r = r.

(** *** A reference backend

    The pivots of the Cholesky factorisation are the squares of the diagonal
    of [L]; they are computed here by symmetric elimination, without square
    roots.  The solves are by the inverse. *)
Fixpoint llt_pivots n : 'M[F]_n -> bool :=
  match n with
  | 0%N => fun _ => true
  | n'.+1 => fun G : 'M[F]_(1 + n') =>
      (0 < G 0 0) &&
      llt_pivots (drsubmx G - (G 0 0)^-1 *: (dlsubmx G *m (dlsubmx G)^T))
  end.

Definition exact_backend : EigenBackend :=
  {| LLT_info := fun n G =>
       if llt_pivots (selfadjoint_lower G) then Success else NumericalIssue;
     LLT_solve := fun n p G B => invmx (selfadjoint_lower G) *m B;
     QR_solve := fun m p S r => invmx S *m r;
     SVD_solve := fun k S r => invmx S *m r;
     uninitialized := fun p q => 0 |}.

End Model.

(** ** The contributions of one binding, as the spec words them *)
Section Contributions.

Variable F : realFieldType.
Variable Var : Type.
Variable n : nat.
Variable prog : MathematicalProgram F Var n.

(** The quadratic coefficients a cost binding sends to [G(I, J)]: every
    local pair [(i, j)] whose variables have the global indices [(I, J)]. *)
Definition scatter_Q (binding : QuadraticCostBinding F Var) (I J : 'I_n) : F :=
  \sum_(i < qc_size binding) \sum_(j < qc_size binding)
    (if (I == FindDecisionVariableIndex prog (qc_variables binding i 0) :> nat)
        && (J == FindDecisionVariableIndex prog (qc_variables binding j 0)
              :> nat)
     then Q binding i j else 0).

(** The linear coefficients a cost binding sends to [c(I)]. *)
Definition scatter_b (binding : QuadraticCostBinding F Var) (I : 'I_n) : F :=
  \sum_(i < qc_size binding)
    (if I == FindDecisionVariableIndex prog (qc_variables binding i 0) :> nat
     then qc_b binding i 0 else 0).

(** The number of rows of a list of constraint bindings. *)
Definition total_rows (bindings : seq (LinearEqualityBinding F Var)) : nat :=
  sumn [seq le_rows binding | binding <- bindings].

End Contributions.

(** ** What the column loop of one constraint binding leaves behind *)
Section Placement.

Variable F : realFieldType.
Variable Var : Type.
Variable n : nat.
Variable prog : MathematicalProgram F Var n.

(** The global index of the [i]-th variable of a constraint binding. *)
Definition le_index (binding : LinearEqualityBinding F Var)
    (i : 'I_(le_size binding)) : nat :=
  FindDecisionVariableIndex prog (le_variables binding i 0).

(** Entry [J] of local row [r] after the columns of the binding were copied
    in turn over a row that held [a0] there: each column bound to [J]
    replaces what was there before. *)
Definition placed (binding : LinearEqualityBinding F Var)
    (r : 'I_(le_rows binding)) (J : 'I_n) (a0 : F) : F :=
  foldl (fun a (i : 'I_(le_size binding)) =>
           if J == le_index i :> nat then le_A binding r i else a)
        a0 (enum 'I_(le_size binding)).

End Placement.

(** ** The write-back, as one expression *)
Section WriteBack.

Variable F : realFieldType.
Variable Var : Type.
Variable n : nat.

(** The program after [SetDecisionVariableValues(x)], [SetOptimalCost] with
    the cost the source computes from [x], and [SetSolverResult]. *)
Definition written (prog : MathematicalProgram F Var n) (G : 'M[F]_n)
    (c x : 'cV[F]_n) : MathematicalProgram F Var n :=
  SetSolverResult
    (SetOptimalCost (SetDecisionVariableValues prog x)
                    (2%:R^-1 * dot x (G *m x + c)))
    kEqualityConstrainedQP 0.

End WriteBack.

(** ** Concrete programs

    Decision variables are numbered: the variable [k] has the global
    index [k]. *)
Section Programs.

Variable F : realFieldType.

Definition program (n : nat) (costs : seq (QuadraticCostBinding F nat))
    (equalities : seq (LinearEqualityBinding F nat)) :
    MathematicalProgram F nat n :=
  {| generic_constraints := [::];
     generic_costs := [::];
     linear_constraints := [::];
     bounding_box_constraints := [::];
     linear_complementarity_constraints := [::];
     quadratic_costs := costs;
     linear_equality_constraints := equalities;
     FindDecisionVariableIndex := id;
     decision_variable_values := 0;
     optimal_cost := 0;
     solver_result := None |}.

(** Two overlapping cost terms: [Q = 2 I] over the variables 0 and 1, and
    [Q = (3)] over the variable 1. *)
Definition overlap_term1 : QuadraticCostBinding F nat :=
  {| qc_size := 2; Q := 2%:R%:M; qc_b := 0;
     qc_variables := \col_i (i : nat) |}.

Definition overlap_term2 : QuadraticCostBinding F nat :=
  {| qc_size := 1; Q := 3%:R%:M; qc_b := 0;
     qc_variables := const_mx 1%N |}.

Definition overlap_program : MathematicalProgram F nat 2 :=
  program 2 [:: overlap_term1; overlap_term2] [::].

(** No cost, and the constraint [x = (3, 4)] on two variables. *)
Definition degenerate_equality : LinearEqualityBinding F nat :=
  {| le_rows := 2; le_size := 2; le_A := 1%:M;
     lower_bound := \col_i (3 + i)%:R;
     le_variables := \col_i (i : nat) |}.

Definition degenerate_program : MathematicalProgram F nat 2 :=
  program 2 [::] [:: degenerate_equality].

(** One variable, the cost [x^2 + 2 x] and no constraint. *)
Definition offset_cost : QuadraticCostBinding F nat :=
  {| qc_size := 1; Q := 2%:R%:M; qc_b := const_mx 2%:R;
     qc_variables := const_mx 0%N |}.

Definition offset_program : MathematicalProgram F nat 1 :=
  program 1 [:: offset_cost] [::].

(** Two constraint terms of two and three rows on one variable each. *)
Definition stacked_equality (rows : nat) (variable : nat) (rhs : F) :
    LinearEqualityBinding F nat :=
  {| le_rows := rows; le_size := 1; le_A := const_mx 1;
     lower_bound := const_mx rhs;
     le_variables := const_mx variable |}.

Definition stacked_program : MathematicalProgram F nat 2 :=
  program 2 [::] [:: stacked_equality 2 0 1; stacked_equality 3 1 2%:R].

End Programs.

(** ** Backends that agree on a decomposition *)
Section Agreement.

Variable F : realFieldType.
Implicit Types E : EigenBackend F.
Implicit Types Other : EigenBackend F.

Definition same_LLT_info E Other : Prop :=
  forall n (G : 'M[F]_n), LLT_info Other G = LLT_info E G.

Definition same_LLT_solve E Other : Prop :=
  forall n p (G : 'M[F]_n) (B : 'M[F]_(n, p)),
    LLT_solve Other G B = LLT_solve E G B.

Definition same_QR_solve E Other : Prop :=
  forall m p (S : 'M[F]_m) (r : 'M[F]_(m, p)),
    QR_solve Other S r = QR_solve E S r.

Definition same_SVD_solve E Other : Prop :=
  forall k (S : 'M[F]_k) (r : 'cV[F]_k),
    SVD_solve Other S r = SVD_solve E S r.

(** The reference backend with other contents of fresh storage. *)
Definition exact_backend_over (garbage : forall p q, 'M[F]_(p, q)) :
    EigenBackend F :=
  {| LLT_info := @LLT_info F (exact_backend F);
     LLT_solve := @LLT_solve F (exact_backend F);
     QR_solve := @QR_solve F (exact_backend F);
     SVD_solve := @SVD_solve F (exact_backend F);
     uninitialized := garbage |}.

(** A backend whose singular-value solver is of no use. *)
Definition no_svd_backend : EigenBackend F :=
  {| LLT_info := @LLT_info F (exact_backend F);
     LLT_solve := @LLT_solve F (exact_backend F);
     QR_solve := @QR_solve F (exact_backend F);
     SVD_solve := fun k S r => 0;
     uninitialized := fun p q => const_mx 1 |}.

(** A backend whose triangular and QR solvers are of no use. *)
Definition svd_only_backend : EigenBackend F :=
  {| LLT_info := @LLT_info F (exact_backend F);
     LLT_solve := fun n p G B => 0;
     QR_solve := fun m p S r => 0;
     SVD_solve := @SVD_solve F (exact_backend F);
     uninitialized := fun p q => const_mx 1 |}.

End Agreement.

(** ** The problems the concrete programs assemble to *)
Section Problems.

Variable F : realFieldType.

(** [G = 0], [c = 0], [A = I], [b = (3, 4)]. *)
Definition degenerate_problem : Assembled F 2 :=
  {| as_m := 2; as_G := 0; as_c := 0; as_A := 1%:M;
     as_b := \col_i (3 + i)%:R |}.

(** [G = (2)], [c = (2)], no constraint. *)
Definition offset_problem : Assembled F 1 :=
  {| as_m := 0; as_G := 2%:R%:M; as_c := const_mx 2%:R; as_A := 0;
     as_b := 0 |}.

End Problems.

(** ** The end-to-end example of the spec

    Minimise [x1^2 + x2^2] subject to [x1 + x2 = 1]. *)
Section Example.

Variable F : realFieldType.

Definition example_equality : LinearEqualityBinding F nat :=
  {| le_rows := 1; le_size := 2; le_A := const_mx 1;
     lower_bound := const_mx 1;
     le_variables := \col_i (i : nat) |}.

Definition example_program : MathematicalProgram F nat 2 :=
  program 2 [:: overlap_term1 F] [:: example_equality].

(** [G = 2 I], [c = 0], [A = (1 1)], [b = (1)]. *)
Definition example_problem : Assembled F 2 :=
  {| as_m := 1; as_G := 2%:R%:M; as_c := 0; as_A := const_mx 1;
     as_b := const_mx 1 |}.

(** The same program after an earlier solve left values behind. *)
Definition solved_before (n : nat) (prog : MathematicalProgram F nat n) :
    MathematicalProgram F nat n :=
  SetSolverResult
    (SetOptimalCost (SetDecisionVariableValues prog (const_mx 1)) 1)
    kIpopt 0.

End Example.

(** ** A property of every element of a list *)
Definition every (T : Type) (P : T -> Prop) (s : seq T) : Prop :=
  foldr (fun t rest => P t /\ rest) True s.

(** ** What the bindings mean at a point

    A binding speaks about the entries of [x] at the global indices of its
    variables. *)
Section Meaning.

Variable F : realFieldType.
Variable Var : Type.
Variable n : nat.
Variable prog : MathematicalProgram F Var n.

(** The global index of the [i]-th variable of a cost binding (the entry
    [v_index[i]] of the source). *)
Definition qc_index (binding : QuadraticCostBinding F Var)
    (i : 'I_(qc_size binding)) : nat :=
  FindDecisionVariableIndex prog (qc_variables binding i 0).

(** The values of the variables of a binding at [x]. *)
Definition qc_values (binding : QuadraticCostBinding F Var) (x : 'cV[F]_n) :
    'cV[F]_(qc_size binding) :=
  \col_i coeff x (qc_index i) 0%N.

Definition le_values (binding : LinearEqualityBinding F Var) (x : 'cV[F]_n) :
    'cV[F]_(le_size binding) :=
  \col_i coeff x (le_index prog i) 0%N.

(** The cost [1/2 z' Q z + b' z] of a binding at the values [z] of its
    variables. *)
Definition binding_cost (binding : QuadraticCostBinding F Var)
    (x : 'cV[F]_n) : F :=
  objective (Q binding) (qc_b binding) (qc_values binding x).

(** The constraint [A z = lower_bound] of a binding at the values [z] of
    its variables. *)
Definition binding_holds (binding : LinearEqualityBinding F Var)
    (x : 'cV[F]_n) : Prop :=
  le_A binding *m le_values binding x = lower_bound binding.

(** The selection matrix of a list of global indices: row [i] picks the
    entry at the index [v i]. *)
Definition selection k (v : 'I_k -> nat) : 'M[F]_(k, n) :=
  \matrix_(i, I) (I == v i :> nat)%:R.

(** Every variable of every binding has an index below [num_vars]; outside
    of this the source reads and writes out of bounds. *)
Definition costs_in_range : bool :=
  all (fun binding : QuadraticCostBinding F Var =>
         [forall i : 'I_(qc_size binding), (qc_index i < n)%N])
      (quadratic_costs prog).

Definition equalities_in_range : bool :=
  all (fun binding : LinearEqualityBinding F Var =>
         [forall i : 'I_(le_size binding), (le_index prog i < n)%N])
      (linear_equality_constraints prog).

(** No constraint binding lists a variable twice. *)
Definition equalities_distinct : Prop :=
  every (fun binding => injective (@le_index F Var n prog binding))
        (linear_equality_constraints prog).

(** A variable that no cost binding mentions. *)
Definition without_cost (I : 'I_n) : Prop :=
  every (fun binding => forall i : 'I_(qc_size binding), qc_index i <> I)
        (quadratic_costs prog).

End Meaning.

Section Convexity.

Variable F : realFieldType.

Definition positive_semidefinite n (G : 'M[F]_n) : Prop :=
  forall x : 'cV[F]_n, 0 <= dot x (G *m x).

(** The KKT conditions of [minimize 1/2 x'Gx + c'x s.t. Ax = b], with the
    sign of the multipliers that the source uses. *)
Definition KKT n m (G : 'M[F]_n) (c : 'cV[F]_n) (A : 'M[F]_(m, n))
    (b : 'cV[F]_m) (x : 'cV[F]_n) (y : 'cV[F]_m) : Prop :=
  A *m x = b /\ G *m x + c - A^T *m y = 0.

(** The solves are linear: a zero right-hand side gives zero. *)
Definition solves_zero (E : EigenBackend F) : Prop :=
  [/\ forall n p (G : 'M[F]_n), LLT_solve E G (0 : 'M[F]_(n, p)) = 0,
      forall m p (S : 'M[F]_m), QR_solve E S (0 : 'M[F]_(m, p)) = 0
    & forall k (S : 'M[F]_k), SVD_solve E S 0 = 0].

End Convexity.

(** ** Least-squares contracts on consistent systems *)
Section Consistent.

Variable F : realFieldType.

(** A least-squares solver solves every system that has a solution. *)
Definition QR_consistent (E : EigenBackend F) : Prop :=
  forall m p (S : 'M[F]_m) (r : 'M[F]_(m, p)),
    (exists y, S *m y = r) -> S *m QR_solve E S r = r.

(** The reference backend with generalised inverses in the least-squares
    solves. *)
Definition lsq_backend : EigenBackend F :=
  {| LLT_info := @LLT_info F (exact_backend F);
     LLT_solve := @LLT_solve F (exact_backend F);
     QR_solve := fun m p S r => (r^T *m pinvmx S^T)^T;
     SVD_solve := fun k S r => (r^T *m pinvmx S^T)^T;
     uninitialized := fun p q => 0 |}.

End Consistent.

(** ** More concrete programs *)
Section MorePrograms.

Variable F : realFieldType.

(** Two variables, a cost on the first only. *)
Definition partial_cost_program : MathematicalProgram F nat 2 :=
  program 2 [:: offset_cost F] [::].

(** The end-to-end example with its constraint stated twice. *)
Definition redundant_program : MathematicalProgram F nat 2 :=
  program 2 [:: overlap_term1 F] [:: example_equality F; example_equality F].

End MorePrograms.

(** * Properties *)

(** ** Run-time indexed access *)
Section DenseTheory.

Variable R : nmodType.

Lemma coeff_ord m n (M : 'M[R]_(m, n)) (i : 'I_m) (j : 'I_n) :
  coeff M i j = M i j.
Proof.
rewrite /coeff !insubT //= => Hi Hj.
by congr (M _ _); apply: val_inj.
Qed.

Lemma segment_all m (v : 'cV[R]_m) : segment v 0 m = v.
Proof.
apply/matrixP=> i j; rewrite !mxE !add0n ord1.
exact: (coeff_ord v i 0).
Qed.

Lemma add_coeffE m n (M : 'M[R]_(m, n)) r c q (i : 'I_m) (j : 'I_n) :
  add_coeff M r c q i j
  = M i j + (if (i == r :> nat) && (j == c :> nat) then q else 0).
Proof. by rewrite mxE; case: ifP; rewrite ?addr0. Qed.

End DenseTheory.

(** ** Assembly of the costs *)
Section CostAssembly.

Variable F : realFieldType.
Variable Var : Type.
Variable n : nat.
Variable prog : MathematicalProgram F Var n.

Local Notation QCB := (QuadraticCostBinding F Var).

Lemma nth_v_index k (f : 'I_k -> nat) (i : 'I_k) :
  nth 0%N [seq f i | i <- enum 'I_k] i = f i.
Proof.
by rewrite (nth_map i) ?size_enum_ord // nth_ord_enum.
Qed.

Lemma foldl_add_coeff T m p (s : seq T) (r c : T -> nat) (q : T -> F)
    (M : 'M[F]_(m, p)) (I : 'I_m) (J : 'I_p) :
  foldl (fun M t => add_coeff M (r t) (c t) (q t)) M s I J
  = M I J + \sum_(t <- s)
      (if (I == r t :> nat) && (J == c t :> nat) then q t else 0).
Proof.
elim: s M => [|t s IHs] M /=; first by rewrite big_nil addr0.
by rewrite IHs add_coeffE big_cons addrA.
Qed.

Lemma cost_loops T (s s' : seq T) (v : T -> nat) (q : T -> T -> F)
    (l : T -> F) (Gc : 'M[F]_n * 'cV[F]_n) (I J : 'I_n) :
  let step := fun (Gc : 'M[F]_n * 'cV[F]_n) i =>
    (foldl (fun G j => add_coeff G (v i) (v j) (q i j)) Gc.1 s',
     add_coeff Gc.2 (v i) 0%N (l i)) in
  (foldl step Gc s).1 I J
    = Gc.1 I J + \sum_(i <- s) \sum_(j <- s')
        (if (I == v i :> nat) && (J == v j :> nat) then q i j else 0)
  /\ (foldl step Gc s).2 I 0
    = Gc.2 I 0 + \sum_(i <- s) (if I == v i :> nat then l i else 0).
Proof.
move=> step; elim: s Gc => [|i s IHs] Gc /=; first by rewrite !big_nil !addr0.
have [-> ->] := IHs (step Gc i).
by rewrite !big_cons /= !add_coeffE foldl_add_coeff andbT !addrA.
Qed.

Lemma add_quadratic_costE (Gc : 'M[F]_n * 'cV[F]_n) (binding : QCB)
    (I J : 'I_n) :
  (add_quadratic_cost prog Gc binding).1 I J
    = Gc.1 I J + scatter_Q prog binding I J
  /\ (add_quadratic_cost prog Gc binding).2 I 0
    = Gc.2 I 0 + scatter_b prog binding I.
Proof.
rewrite /add_quadratic_cost /scatter_Q /scatter_b.
set v := fun i : 'I_(qc_size binding) =>
  FindDecisionVariableIndex prog (qc_variables binding i 0).
set s := enum 'I_(qc_size binding).
have [] := @cost_loops _ s s (fun i => nth 0%N (map v s) i) (Q binding)
             (fun i => qc_b binding i 0) Gc I J.
rewrite /= => -> ->; rewrite /s !big_enum /=.
split; congr (_ + _); apply: eq_bigr => i _; rewrite ?nth_v_index //.
by rewrite big_enum; apply: eq_bigr => j _; rewrite nth_v_index.
Qed.

Lemma foldl_add_quadratic_cost (costs : seq QCB) (Gc : 'M[F]_n * 'cV[F]_n)
    (I J : 'I_n) :
  (foldl (add_quadratic_cost prog) Gc costs).1 I J
    = Gc.1 I J + \sum_(binding <- costs) scatter_Q prog binding I J
  /\ (foldl (add_quadratic_cost prog) Gc costs).2 I 0
    = Gc.2 I 0 + \sum_(binding <- costs) scatter_b prog binding I.
Proof.
elim: costs Gc => [|binding costs IHc] Gc /=; first by rewrite !big_nil !addr0.
have [-> ->] := IHc (add_quadratic_cost prog Gc binding).
have [-> ->] := add_quadratic_costE Gc binding I J.
by rewrite !big_cons !addrA.
Qed.

End CostAssembly.

(** ** Assembly of the constraints *)
Section BlockTheory.

Variable R : nmodType.

Lemma set_blockE m n p q (M : 'M[R]_(m, n)) r0 c0 (B : 'M[R]_(p, q))
    (I : 'I_m) (J : 'I_n) :
  set_block M r0 c0 B I J
  = if [&& (r0 <= I)%N, (I < r0 + p)%N, (c0 <= J)%N & (J < c0 + q)%N]
    then coeff B (I - r0) (J - c0) else M I J.
Proof. by rewrite mxE. Qed.

(** Writing one column: [M.block(r0, c0, p, 1) = B.col(i)]. *)
Lemma set_block_col m n p q (M : 'M[R]_(m, n)) r0 c0 (B : 'M[R]_(p, q))
    (i : 'I_q) (I : 'I_m) (J : 'I_n) :
  set_block M r0 c0 (col i B) I J
  = if [&& (r0 <= I)%N, (I < r0 + p)%N & J == c0 :> nat]
    then coeff B (I - r0) i else M I J.
Proof.
rewrite set_blockE addn1 ltnS -eqn_leq [c0 == _]eq_sym.
case: (boolP (r0 <= I)%N) => //= le_r0; case: (boolP (I < r0 + p)%N) => //= lt_I.
case: eqP => //= ->; rewrite subnn.
have lt_r : (I - r0 < p)%N by rewrite ltn_subLR.
by rewrite -[(I - r0)%N]/(val (Ordinal lt_r)) (coeff_ord _ _ 0) coeff_ord mxE.
Qed.

Lemma foldl_ext T (f g : R -> T -> R) (s : seq T) (a : R) :
  (forall a t, f a t = g a t) -> foldl f a s = foldl g a s.
Proof. by move=> fg; elim: s a => //= t s IHs a; rewrite fg. Qed.

Lemma foldl_set_block_col T m n p q (s : seq T) (v : T -> nat)
    (k : T -> 'I_q) (B : 'M[R]_(p, q)) r0 (M : 'M[R]_(m, n))
    (I : 'I_m) (J : 'I_n) :
  foldl (fun M t => set_block M r0 (v t) (col (k t) B)) M s I J
  = if (r0 <= I)%N && (I < r0 + p)%N
    then foldl (fun a t => if J == v t :> nat then coeff B (I - r0) (k t)
                           else a) (M I J) s
    else M I J.
Proof.
elim: s M => [|t s IHs] M /=; first by rewrite if_same.
rewrite IHs set_block_col.
by case: (r0 <= I)%N; case: (I < r0 + p)%N.
Qed.

End BlockTheory.

Section ConstraintAssembly.

Variable F : realFieldType.
Variable Var : Type.
Variable n : nat.
Variable prog : MathematicalProgram F Var n.

Local Notation LEB := (LinearEqualityBinding F Var).

Lemma num_constraintsE : num_constraints prog
  = total_rows (linear_equality_constraints prog).
Proof.
rewrite /num_constraints /total_rows -[RHS]add0n.
elim: (linear_equality_constraints prog) 0%N => [|t s IHs] a /=.
  by rewrite addn0.
by rewrite IHs addnA.
Qed.

Section OneBinding.

Variable m : nat.
Variables (A : 'M[F]_(m, n)) (b : 'cV[F]_m) (constraint_index : nat).
Variable binding : LEB.

Local Notation next :=
  (add_linear_equality prog (A, b, constraint_index) binding).

Lemma add_linear_equality_index :
  next.2 = (constraint_index + le_rows binding)%N.
Proof. by []. Qed.

Lemma add_linear_equality_outside (I : 'I_m) (J : 'I_n) :
  ~~ ((constraint_index <= I)%N && (I < constraint_index + le_rows binding)%N)
  -> next.1.1 I J = A I J /\ next.1.2 I 0 = b I 0.
Proof.
move=> /negbTE out; rewrite /= foldl_set_block_col out.
by rewrite /set_segment set_blockE andbA out.
Qed.

Lemma add_linear_equality_inside (I : 'I_m) (J : 'I_n)
    (r : 'I_(le_rows binding)) :
  I = (constraint_index + r)%N :> nat ->
  next.1.1 I J = placed prog r J (A I J)
  /\ next.1.2 I 0 = lower_bound binding r 0.
Proof.
move=> I_r; rewrite /= foldl_set_block_col /set_segment set_blockE.
rewrite segment_all I_r leq_addr ltn_add2l ltn_ord /= addKn subnn.
split; last exact: (coeff_ord _ r 0).
by apply: foldl_ext => a i; rewrite coeff_ord.
Qed.

End OneBinding.

Lemma later_bindings_keep m (post : seq LEB) (A : 'M[F]_(m, n))
    (b : 'cV[F]_m) (constraint_index : nat) (I : 'I_m) (J : 'I_n) :
  (I < constraint_index)%N ->
  (foldl (@add_linear_equality F Var n prog m) (A, b, constraint_index)
         post).1.1 I J = A I J
  /\ (foldl (@add_linear_equality F Var n prog m) (A, b, constraint_index)
            post).1.2 I 0 = b I 0.
Proof.
elim: post A b constraint_index => [|t post IHp] A b ci lt_I //.
rewrite -[foldl _ _ (t :: post)]/(foldl _
           (add_linear_equality prog (A, b, ci) t) post).
have := @add_linear_equality_outside m A b ci t I J.
have := add_linear_equality_index A b ci t.
case: (add_linear_equality _ _ _) => [[A1 b1] ci1] /= -> out.
have [-> ->] := IHp A1 b1 _ (ltn_addr (le_rows t) lt_I).
by apply: out; rewrite leqNgt lt_I.
Qed.

Lemma foldl_add_linear_equality m (pre post : seq LEB) (binding : LEB)
    (A : 'M[F]_(m, n)) (b : 'cV[F]_m) (constraint_index : nat)
    (I : 'I_m) (J : 'I_n) (r : 'I_(le_rows binding)) :
  I = (constraint_index + total_rows pre + r)%N :> nat ->
  (foldl (@add_linear_equality F Var n prog m) (A, b, constraint_index)
         (pre ++ binding :: post)).1.1 I J = placed prog r J (A I J)
  /\ (foldl (@add_linear_equality F Var n prog m) (A, b, constraint_index)
            (pre ++ binding :: post)).1.2 I 0 = lower_bound binding r 0.
Proof.
elim: pre A b constraint_index => [|t pre IHp] A b ci.
  rewrite /total_rows /= addn0 => I_r.
  rewrite -[foldl _ _ _]/(foldl _
             (add_linear_equality prog (A, b, ci) binding) post).
  have := @add_linear_equality_inside m A b ci binding I J r I_r.
  have := add_linear_equality_index A b ci binding.
  case: (add_linear_equality _ _ _) => [[A1 b1] ci1] /= -> [<- <-].
  by apply: later_bindings_keep; rewrite I_r ltn_add2l.
rewrite /total_rows [sumn _]/= addnA => I_r.
rewrite cat_cons -[foldl _ _ (t :: _)]/(foldl _
           (add_linear_equality prog (A, b, ci) t) (pre ++ binding :: post)).
have := @add_linear_equality_outside m A b ci t I J.
have := add_linear_equality_index A b ci t.
case: (add_linear_equality _ _ _) => [[A1 b1] ci1] /= -> out.
have [-> ->] := IHp A1 b1 _ I_r.
have [|-> _ //] := out.
by rewrite I_r -addnA ltnNge leq_addr andbF.
Qed.

End ConstraintAssembly.

Section PlacedTheory.

Variable T : Type.

Lemma foldl_over_map (T1 T2 : Type) (h : T1 -> T2) (f : T -> T2 -> T)
    (a : T) (s : seq T1) :
  foldl f a [seq h t | t <- s] = foldl (fun a t => f a (h t)) a s.
Proof. by elim: s a => //=. Qed.

Lemma foldl_replace_none (k : nat) (hit : pred 'I_k) (new : 'I_k -> T)
    (s : seq 'I_k) (a0 : T) :
  (forall i, ~~ hit i) ->
  foldl (fun a i => if hit i then new i else a) a0 s = a0.
Proof. by move=> no_hit; elim: s => //= i s IHs; rewrite (negbTE (no_hit i)). Qed.

Lemma foldl_replace_last (k : nat) (hit : pred 'I_k) (new : 'I_k -> T)
    (i : 'I_k) (a0 : T) :
  hit i -> (forall i' : 'I_k, (i < i')%N -> ~~ hit i') ->
  foldl (fun a i => if hit i then new i else a) a0 (enum 'I_k) = new i.
Proof.
elim: k hit new i => [|k IHk] hit new i; first by case: i.
move=> hit_i later; rewrite enum_ordSr -cats1 foldl_cat /=.
have [i_max | i_small] := eqVneq i ord_max; first by rewrite -i_max hit_i.
have lt_ik : (i < k)%N.
  rewrite ltn_neqAle -ltnS ltn_ord andbT.
  by apply: contra_neq i_small => eq_ik; apply: val_inj.
rewrite (negbTE (later ord_max lt_ik)).
rewrite foldl_over_map.
have -> : i = widen_ord (leqnSn k) (Ordinal lt_ik) by apply: val_inj.
apply: (IHk (fun j => hit (widen_ord (leqnSn k) j))
            (fun j => new (widen_ord (leqnSn k) j)) (Ordinal lt_ik)).
  by have <- : i = widen_ord (leqnSn k) (Ordinal lt_ik) by apply: val_inj.
by move=> i' lt_i; apply: later.
Qed.

End PlacedTheory.

(** ** Inner products and positive definite matrices *)
Section PositiveDefinite.

Variable F : realFieldType.

Lemma dotE n (x y : 'cV[F]_n) : dot x y = (x^T *m y) 0 0.
Proof. by rewrite mxE; apply: eq_bigr => i _; rewrite mxE. Qed.

Lemma dotC n (x y : 'cV[F]_n) : dot x y = dot y x.
Proof. by apply: eq_bigr => i _; rewrite mulrC. Qed.

Lemma dotDr n (x y z : 'cV[F]_n) : dot x (y + z) = dot x y + dot x z.
Proof. by rewrite !dotE mulmxDr mxE. Qed.

Lemma dotDl n (x y z : 'cV[F]_n) : dot (x + y) z = dot x z + dot y z.
Proof. by rewrite dotC dotDr !(dotC z). Qed.

Lemma dotNr n (x y : 'cV[F]_n) : dot x (- y) = - dot x y.
Proof. by rewrite !dotE mulmxN mxE. Qed.

Lemma dotNl n (x y : 'cV[F]_n) : dot (- x) y = - dot x y.
Proof. by rewrite dotC dotNr dotC. Qed.

Lemma dotZr n a (x y : 'cV[F]_n) : dot x (a *: y) = a * dot x y.
Proof. by rewrite !dotE -scalemxAr mxE. Qed.

Lemma dot0r n (x : 'cV[F]_n) : dot x 0 = 0.
Proof. by rewrite dotE mulmx0 mxE. Qed.

Lemma dot0l n (x : 'cV[F]_n) : dot 0 x = 0.
Proof. by rewrite dotC dot0r. Qed.

Lemma dot_mulmx n m (x : 'cV[F]_m) (M : 'M[F]_(m, n)) (y : 'cV[F]_n) :
  dot x (M *m y) = dot (M^T *m x) y.
Proof. by rewrite !dotE trmx_mul trmxK mulmxA. Qed.

Lemma dot_self_ge0 n (x : 'cV[F]_n) : 0 <= dot x x.
Proof. by apply: sumr_ge0 => i _; rewrite -expr2 sqr_ge0. Qed.

Lemma dot_self_eq0 n (x : 'cV[F]_n) : dot x x = 0 -> x = 0.
Proof.
move=> x0; apply/matrixP=> i j; rewrite ord1 mxE.
have sq_ge0 (k : 'I_n) : true -> 0 <= x k 0 * x k 0.
  by rewrite -expr2 sqr_ge0.
by have /eqP := psumr_eq0P sq_ge0 x0 (i := i) isT; rewrite -expr2 sqrf_eq0 => /eqP.
Qed.

Lemma positive_definite_unit n (G : 'M[F]_n) :
  positive_definite G -> G \in unitmx.
Proof.
move=> pdG; rewrite -row_free_unit; apply: inj_row_free => v vG0.
apply: trmx_inj; rewrite trmx0; apply/eqP/negPn/negP => /pdG.
by rewrite dotE trmxK mulmxA vG0 mul0mx mxE ltxx.
Qed.

Lemma selfadjoint_lower_sym n (G : 'M[F]_n) :
  symmetric G -> selfadjoint_lower G = G.
Proof.
move=> symG; apply/matrixP=> i j; rewrite mxE; case: ifP => // _.
by rewrite -[in RHS]symG mxE.
Qed.

Lemma symmetric0 n : symmetric (0 : 'M[F]_n).
Proof. exact: trmx0. Qed.

Lemma selfadjoint_lowerT n (G : 'M[F]_n) :
  symmetric (selfadjoint_lower G).
Proof.
apply/matrixP=> i j; rewrite !mxE; case: (ltngtP i j) => // ij.
by rewrite (val_inj ij).
Qed.

End PositiveDefinite.

(** ** The full system of approach (1) *)
Section FullSystem.

Variable F : realFieldType.
Variable E : EigenBackend F.
Variables n m : nat.

Lemma A_fullE (G : 'M[F]_n) (A : 'M[F]_(m, n)) :
  A_full E G A = block_mx G (- A^T) A 0.
Proof.
apply/matrixP=> i j; rewrite /A_full !set_blockE !add0n !leq0n /=.
case: (split_ordP i) => i' ->; case: (split_ordP j) => j' -> /=.
- by rewrite block_mxEul !(leqNgt n) !ltn_ord /= !subn0 coeff_ord.
- rewrite block_mxEur (leqNgt n i') ltn_ord leq_addr ltn_add2l ltn_ord /=.
  by rewrite subn0 addKn coeff_ord.
- rewrite block_mxEdl (leqNgt n j') ltn_ord leq_addr ltn_add2l ltn_ord /=.
  by rewrite subn0 addKn coeff_ord.
- by rewrite block_mxEdr !leq_addr !ltn_add2l !ltn_ord /= !addKn coeff_ord.
Qed.

Lemma b_fullE (c : 'cV[F]_n) (b : 'cV[F]_m) :
  b_full E c b = col_mx (- c) b.
Proof.
apply/matrixP=> i j; rewrite /b_full /set_segment !set_blockE !add0n !leq0n.
rewrite ord1 /= !andbT.
case: (split_ordP i) => i' -> /=.
  by rewrite col_mxEu (leqNgt n) !ltn_ord /= subn0 (coeff_ord _ _ 0).
by rewrite col_mxEd leq_addr ltn_add2l ltn_ord /= addKn (coeff_ord _ _ 0).
Qed.

Lemma segment_usubmx (v : 'cV[F]_(n + m)) : segment v 0 n = usubmx v.
Proof.
apply/matrixP=> i j; rewrite !mxE !add0n ord1.
exact: (coeff_ord v (lshift m i) 0).
Qed.

Lemma full_systemE (G : 'M[F]_n) (c : 'cV[F]_n) (A : 'M[F]_(m, n))
    (b : 'cV[F]_m) :
  full_system E G c A b
  = usubmx (SVD_solve E (block_mx G (- A^T) A 0) (col_mx (- c) b)).
Proof. by rewrite /full_system segment_usubmx A_fullE b_fullE. Qed.

End FullSystem.

(** ** [Solve] as assembly followed by one of the two strategies *)
Section SolveTheory.

Variable F : realFieldType.
Variable Var : Type.
Variable E : EigenBackend F.
Variable n : nat.
Implicit Type prog : MathematicalProgram F Var n.

Lemma SolveE prog :
  Solve E prog
  = if supported prog
    then Some (kSolutionFound,
               written prog (as_G (assemble prog)) (as_c (assemble prog))
                       (kkt_point E (assemble prog)))
    else None.
Proof.
rewrite /Solve /kkt_point /assemble /=.
case: (supported prog) => //=.
case: (assemble_costs prog) => G c; case: (assemble_constraints prog) => A b /=.
by case: (LLT_info E G).
Qed.

Lemma written_values prog G c x :
  decision_variable_values (written prog G c x) = x.
Proof. by []. Qed.

Lemma written_cost prog G c x :
  optimal_cost (written prog G c x) = 2%:R^-1 * dot x (G *m x + c).
Proof. by []. Qed.

Lemma reported_cost (G : 'M[F]_n) (c x : 'cV[F]_n) :
  2%:R^-1 * dot x (G *m x + c) = objective G c x - 2%:R^-1 * dot c x.
Proof.
rewrite /objective dotDr mulrDr (dotC x c) -addrA; congr (_ + _).
rewrite -[X in _ = X - _]mul1r -mulrBl.
congr (_ * _); apply: (mulfI (x := 2%:R)); first by rewrite pnatr_eq0.
by rewrite mulrBr mulr1 divff ?pnatr_eq0 // -[1 in RHS]/(1%:R) -natrB.
Qed.

End SolveTheory.

(** ** The range-space strategy *)
Section RangeSpace.

Variable F : realFieldType.
Variable E : EigenBackend F.
Variables n m : nat.
Variables (G : 'M[F]_n) (c : 'cV[F]_n) (A : 'M[F]_(m, n)) (b : 'cV[F]_m).

Hypothesis llt_solves : LLT_solves E.
Hypothesis llt_ok : LLT_info E G = Success.
Hypothesis symG : symmetric G.

Lemma LLT_solveK p (B : 'M[F]_(n, p)) : G *m LLT_solve E G B = B.
Proof. by rewrite -{1}(selfadjoint_lower_sym symG) llt_solves. Qed.

Lemma range_space_stationary :
  G *m (range_space E G c A b).1 + c - A^T *m (range_space E G c A b).2 = 0.
Proof. by rewrite /range_space /= LLT_solveK subrK subrr. Qed.

(** The Schur complement [A inv(G) A'] is symmetric ... *)
Lemma schur_sym (M : 'M[F]_(n, m)) : G *m M = A^T -> (A *m M)^T = A *m M.
Proof.
move=> GM; have -> : A = M^T *m G.
  by rewrite -[G]symG -trmx_mul GM trmxK.
by rewrite !trmx_mul trmxK symG mulmxA.
Qed.

(** ... and nonsingular when [G] is positive definite and the rows of [A]
    are independent. *)
Lemma schur_unit (M : 'M[F]_(n, m)) :
  positive_definite G -> row_free A -> G *m M = A^T -> A *m M \in unitmx.
Proof.
move=> pdG freeA GM; rewrite -row_free_unit; apply: inj_row_free => v vS0.
apply: (row_free_inj freeA); rewrite mul0mx.
apply: trmx_inj; rewrite trmx0 trmx_mul -GM -mulmxA.
suff -> : M *m v^T = 0 by rewrite mulmx0.
apply/eqP/negPn/negP => /pdG; rewrite mulmxA GM dotE -trmx_mul.
by rewrite -trmx_mul mulmxA -(mulmxA v) vS0 mul0mx trmx0 mxE ltxx.
Qed.

Hypothesis qr_solves : QR_solves E.
Hypothesis pdG : positive_definite G.
Hypothesis freeA : row_free A.

Lemma range_space_feasible : A *m (range_space E G c A b).1 = b.
Proof.
rewrite /range_space /=.
set M := LLT_solve E G A^T; set lambda := QR_solve E _ _.
have GM : G *m M = A^T by apply: LLT_solveK.
have AE : A = M^T *m G by rewrite -[G]symG -trmx_mul GM trmxK.
have Slam : A *m M *m lambda = M^T *m c + b.
  by apply: qr_solves; apply: schur_unit.
rewrite {1}AE -mulmxA LLT_solveK mulmxBr mulmxA.
have -> : M^T *m A^T = A *m M by rewrite -trmx_mul schur_sym.
by rewrite Slam addrC addKr.
Qed.

End RangeSpace.

(** ** The reference backend meets the contracts *)
Section Pivots.

Variable F : realFieldType.

Lemma dot_col_mx p q (s s' : 'cV[F]_p) (y y' : 'cV[F]_q) :
  dot (col_mx s y) (col_mx s' y') = dot s s' + dot y y'.
Proof.
rewrite /dot big_split_ord /=; congr (_ + _); apply: eq_bigr => i _.
  by rewrite !col_mxEu.
by rewrite !col_mxEd.
Qed.

Lemma dot11 (s s' : 'cV[F]_1) : dot s s' = s 0 0 * s' 0 0.
Proof. by rewrite /dot big_ord1. Qed.

Section OneStep.

Variable n : nat.
Variable G : 'M[F]_(1 + n).
Hypothesis symG : symmetric G.

Local Notation a := (G 0 0).
Local Notation v := (dlsubmx G : 'cV[F]_n).
Local Notation H := (drsubmx G : 'M[F]_n).
Local Notation H' := (H - a^-1 *: (v *m v^T)).

Lemma ursubmx_sym : ursubmx G = v^T.
Proof. by rewrite trmx_dlsub symG. Qed.

Lemma ulsubmx_scalar : ulsubmx G = a%:M.
Proof.
by rewrite [LHS]mx11_scalar; congr (_%:M); rewrite !mxE !lshift0.
Qed.

Lemma schur_step_sym : symmetric H'.
Proof.
rewrite /symmetric linearB /= linearZ /= trmx_mul trmxK.
by rewrite trmx_drsub symG.
Qed.

(** The quadratic form after one step of elimination. *)
Lemma quadratic_form_step (s : 'cV[F]_1) (y : 'cV[F]_n) :
  a != 0 ->
  dot (col_mx s y) (G *m col_mx s y)
  = a^-1 * (a * s 0 0 + dot v y) ^+ 2 + dot y (H' *m y).
Proof.
move=> a_neq0; rewrite -{1}[G]submxK mul_block_col dot_col_mx.
rewrite ulsubmx_scalar ursubmx_sym dot11 dotDr.
have -> : (a%:M *m s + v^T *m y) 0 0 = a * s 0 0 + dot v y.
  by rewrite mxE mul_scalar_mx mxE dotE.
have -> : dot y (v *m s) = dot v y * s 0 0.
  by rewrite dot_mulmx dot11 -dotE.
have -> : dot y (H' *m y) = dot y (H *m y) - a^-1 * (dot v y) ^+ 2.
  rewrite mulmxBl dotDr dotNr -scalemxAl dotZr -mulmxA.
  by rewrite [dot y (v *m _)]dot_mulmx dot11 -dotE -expr2.
set q := dot v y; set s0 := s 0 0; set Y := dot y (H *m y).
have -> : a^-1 * (a * s0 + q) ^+ 2
          = s0 * (a * s0 + q) + q * s0 + a^-1 * q ^+ 2.
  rewrite expr2 mulrA [a^-1 * _]mulrDr mulKf // mulrDl -addrA; congr (_ + _).
  by rewrite mulrDr -mulrA [q * _]mulrCA mulKf // expr2 mulrA.
by rewrite -!addrA; congr (_ + (_ + _)); rewrite addrCA subrr addr0.
Qed.

Lemma quadratic_form_first : dot (col_mx 1 0) (G *m col_mx 1 0) = a.
Proof.
rewrite -{1}[G]submxK mul_block_col dot_col_mx !mulmx0 !addr0 dot0l addr0.
by rewrite ulsubmx_scalar dot11 mul_scalar_mx !mxE eqxx mulr1 mul1r.
Qed.

Lemma col_mx_neq0 (s : 'cV[F]_1) (y : 'cV[F]_n) :
  (col_mx s y != 0) = (s 0 0 != 0) || (y != 0).
Proof.
rewrite -negb_and; congr (~~ _); rewrite -{1}[0]vsubmxK.
apply/eqP/andP => [/eq_col_mx [-> ->] | [/eqP s0 /eqP ->]].
  by rewrite !linear0 mxE eqxx.
by rewrite !linear0 [s]mx11_scalar s0; congr (col_mx _ _); rewrite -scalemx1 scale0r.
Qed.

Lemma pivot_step :
  positive_definite G <-> 0 < a /\ positive_definite H'.
Proof.
split=> [pdG | [a_gt0 pdH] x].
  have a_gt0 : 0 < a.
    rewrite -quadratic_form_first; apply: pdG.
    by rewrite col_mx_neq0 mxE eqxx oner_eq0.
  split=> // y y_neq0; have a_neq0 := lt0r_neq0 a_gt0.
  have := pdG (col_mx (- (a^-1 * dot v y))%:M y).
  rewrite col_mx_neq0 y_neq0 orbT quadratic_form_step // => /(_ isT).
  by rewrite !mxE eqxx mulr1n mulrN mulVKf // addNr expr0n mulr0 add0r.
have a_neq0 := lt0r_neq0 a_gt0.
rewrite -[x]vsubmxK col_mx_neq0 quadratic_form_step //.
have sq_ge0 : 0 <= a^-1 * (a * usubmx x 0 0 + dot v (dsubmx x)) ^+ 2.
  by rewrite mulr_ge0 ?sqr_ge0 // invr_ge0 ltW.
have [-> | y_neq0] := eqVneq (dsubmx x) 0; last first.
  by move=> _; rewrite ltr_wpDl // pdH.
rewrite orbF dot0r addr0 mulmx0 dot0r addr0 => s_neq0.
by rewrite mulr_gt0 ?invr_gt0 // exprn_even_gt0 // mulf_neq0.
Qed.

End OneStep.

Lemma llt_pivotsP n (G : 'M[F]_n) :
  symmetric G -> llt_pivots G <-> positive_definite G.
Proof.
elim: n G => [|n IHn] G symG.
  by split=> // _ x; rewrite (flatmx0 x) eqxx.
have [to_pd of_pd] := pivot_step symG.
split=> [/andP [a_gt0 /(IHn _ (schur_step_sym symG)) pdH] | /to_pd [a_gt0 pdH]].
  exact: of_pd.
by apply/andP; split=> //; apply/(IHn _ (schur_step_sym symG)).
Qed.

End Pivots.

Section ReferenceBackend.

Variable F : realFieldType.

Lemma exact_LLT_complete : LLT_complete (exact_backend F).
Proof.
move=> n G /(llt_pivotsP (selfadjoint_lowerT G)) piv.
by rewrite /= piv.
Qed.

Lemma exact_LLT_sound : LLT_sound (exact_backend F).
Proof.
move=> n G /=; case: ifP => // piv _.
exact/(llt_pivotsP (selfadjoint_lowerT G)).
Qed.

Lemma exact_LLT_solves : LLT_solves (exact_backend F).
Proof.
move=> n p G B /exact_LLT_sound /positive_definite_unit unitG /=.
by rewrite mulKVmx.
Qed.

Lemma exact_QR_solves : QR_solves (exact_backend F).
Proof. by move=> m p S r unitS /=; rewrite mulKVmx. Qed.

Lemma exact_SVD_solves : SVD_solves (exact_backend F).
Proof. by move=> k S r unitS /=; rewrite mulKVmx. Qed.

End ReferenceBackend.

(** ** The assembled problem, entry by entry *)
Section AssembledEntries.

Variable F : realFieldType.
Variable Var : Type.
Variable n : nat.
Variable prog : MathematicalProgram F Var n.

Lemma as_G_sum (I J : 'I_n) :
  as_G (assemble prog) I J
  = \sum_(binding <- quadratic_costs prog) scatter_Q prog binding I J.
Proof.
rewrite /assemble /= /assemble_costs.
have [-> _] := foldl_add_quadratic_cost prog (quadratic_costs prog) (0, 0) I J.
by rewrite /= mxE add0r.
Qed.

Lemma as_c_sum (I : 'I_n) :
  as_c (assemble prog) I 0
  = \sum_(binding <- quadratic_costs prog) scatter_b prog binding I.
Proof.
rewrite /assemble /= /assemble_costs.
have [_ ->] := foldl_add_quadratic_cost prog (quadratic_costs prog) (0, 0) I I.
by rewrite /= mxE add0r.
Qed.

Lemma as_row pre binding post (I : 'I_(num_constraints prog))
    (r : 'I_(le_rows binding)) (J : 'I_n) :
  linear_equality_constraints prog = pre ++ binding :: post ->
  I = (total_rows pre + r)%N :> nat ->
  as_A (assemble prog) I J = placed prog r J 0
  /\ as_b (assemble prog) I 0 = lower_bound binding r 0.
Proof.
move=> eqs I_r; rewrite /assemble /= /assemble_constraints eqs.
have [] := @foldl_add_linear_equality F Var n prog (num_constraints prog)
             pre post binding 0 0 0%N I J r.
  by rewrite add0n.
by rewrite !mxE.
Qed.

Lemma placed_none binding (r : 'I_(le_rows binding)) (J : 'I_n) :
  (forall i : 'I_(le_size binding), le_index prog i <> J) ->
  placed prog r J 0 = 0.
Proof.
move=> none; rewrite /placed.
by apply: foldl_replace_none => i; apply/eqP => /esym; apply: none.
Qed.

Lemma placed_last binding (r : 'I_(le_rows binding)) (J : 'I_n)
    (i : 'I_(le_size binding)) :
  le_index prog i = J ->
  (forall i' : 'I_(le_size binding), (i < i')%N -> le_index prog i' <> J) ->
  placed prog r J 0 = le_A binding r i.
Proof.
move=> hit later; rewrite /placed.
apply: (foldl_replace_last (hit := fun i => J == le_index prog i :> nat)).
  by rewrite hit.
by move=> i' /later /eqP; rewrite eq_sym.
Qed.

End AssembledEntries.

Section ConcreteProblems.

Variable F : realFieldType.

Lemma eq_Assembled n m (G G' : 'M[F]_n) (c c' : 'cV[F]_n)
    (A A' : 'M[F]_(m, n)) (b b' : 'cV[F]_m) :
  G = G' -> c = c' -> A = A' -> b = b' ->
  Build_Assembled G c A b = Build_Assembled G' c' A' b'.
Proof. by move=> -> -> -> ->. Qed.

Lemma degenerate_program_assembles :
  assemble (degenerate_program F) = degenerate_problem F.
Proof.
pose P := assemble (degenerate_program F).
have eqG : as_G P = 0.
  by apply/matrixP=> I J; rewrite as_G_sum big_nil ?mxE.
have eqc : as_c P = 0.
  by apply/matrixP=> I J; rewrite ord1 as_c_sum big_nil ?mxE.
have eqA : as_A P = (1%:M : 'M[F]_2).
  apply/matrixP=> I J.
  have [-> _] := @as_row F nat 2 (degenerate_program F) [::]
                   (degenerate_equality F) [::] I I J erefl erefl.
  rewrite (@placed_last _ _ _ _ (degenerate_equality F) I J J) //.
    by rewrite /le_index /= mxE.
  by move=> i' lt_J; rewrite /le_index /= mxE => eq_J; rewrite eq_J ltnn in lt_J.
have eqb : as_b P = (\col_i (3 + i)%:R : 'cV[F]_2).
  apply/matrixP=> I J; rewrite ord1.
  by have [_ ->] := @as_row F nat 2 (degenerate_program F) [::]
                      (degenerate_equality F) [::] I I I erefl erefl.
exact: (@eq_Assembled 2 2 _ _ _ _ _ _ _ _ eqG eqc eqA eqb).
Qed.

Lemma offset_program_assembles :
  assemble (offset_program F) = offset_problem F.
Proof.
pose P := assemble (offset_program F).
have eqG : as_G P = 2%:R%:M.
  apply/matrixP=> I J; rewrite as_G_sum big_cons big_nil addr0 /scatter_Q /=.
  by rewrite !big_ord_recl !big_ord0 /= !mxE !ord1 /= !addr0.
have eqc : as_c P = const_mx 2%:R.
  apply/matrixP=> I J; rewrite !ord1 as_c_sum big_cons big_nil addr0.
  by rewrite /scatter_b /= big_ord_recl big_ord0 /= !mxE /= addr0.
have eqA : as_A P = (0 : 'M[F]_(0, 1)) by apply/matrixP; case.
have eqb : as_b P = (0 : 'cV[F]_0) by apply/matrixP; case.
exact: (@eq_Assembled 1 0 _ _ _ _ _ _ _ _ eqG eqc eqA eqb).
Qed.

Lemma example_program_assembles :
  assemble (example_program F) = example_problem F.
Proof.
pose P := assemble (example_program F).
have eqG : as_G P = 2%:R%:M.
  apply/matrixP=> I J; rewrite as_G_sum big_cons big_nil addr0 /scatter_Q /=.
  rewrite !big_ord_recl !big_ord0 /= !mxE /= !addr0.
  by case: I => [[|[|I]]] //= ltI; case: J => [[|[|J]]] //= ltJ;
     rewrite ?addr0 ?add0r.
have eqc : as_c P = 0.
  apply/matrixP=> I J; rewrite !ord1 as_c_sum big_cons big_nil addr0.
  rewrite /scatter_b /= !big_ord_recl big_ord0 /= !mxE /= !addr0.
  by rewrite !if_same addr0.
have eqA : as_A P = (const_mx 1 : 'M[F]_(1, 2)).
  apply/matrixP=> I J.
  have [-> _] := @as_row F nat 2 (example_program F) [::]
                   (example_equality F) [::] I I J erefl erefl.
  rewrite (@placed_last _ _ _ _ (example_equality F) I J J) ?mxE //.
    by rewrite /le_index /= mxE.
  by move=> i' lt_J; rewrite /le_index /= mxE => eq_J; rewrite eq_J ltnn in lt_J.
have eqb : as_b P = (const_mx 1 : 'cV[F]_1).
  apply/matrixP=> I J; rewrite [J]ord1.
  have [_ ->] := @as_row F nat 2 (example_program F) [::]
                   (example_equality F) [::] I I 0 erefl erefl.
  by rewrite !mxE.
exact: (@eq_Assembled 2 1 _ _ _ _ _ _ _ _ eqG eqc eqA eqb).
Qed.

Lemma positive_definite_scalar n (a : F) :
  0 < a -> positive_definite (a%:M : 'M[F]_n).
Proof.
move=> a_gt0 x x_neq0; rewrite mul_scalar_mx dotZr mulr_gt0 //.
rewrite lt0r dot_self_ge0 andbT.
by apply: contra_neq x_neq0; apply: dot_self_eq0.
Qed.

Lemma symmetric_scalar n (a : F) : symmetric (a%:M : 'M[F]_n).
Proof. exact: tr_scalar_mx. Qed.

Lemma example_symmetric : symmetric (as_G (assemble (example_program F))).
Proof. by rewrite example_program_assembles; apply: symmetric_scalar. Qed.

Lemma example_positive_definite :
  positive_definite (as_G (assemble (example_program F))).
Proof.
by rewrite example_program_assembles; apply: positive_definite_scalar; rewrite ltr0n.
Qed.

Lemma example_row_free : row_free (as_A (assemble (example_program F))).
Proof.
rewrite example_program_assembles /row_free /= rank_rV.
suff -> : (const_mx 1 : 'rV[F]_2) != 0 by [].
by apply/eqP => /matrixP /(_ 0 0) /eqP; rewrite !mxE oner_eq0.
Qed.

Lemma offset_symmetric : symmetric (as_G (assemble (offset_program F))).
Proof. by rewrite offset_program_assembles; apply: symmetric_scalar. Qed.

Lemma offset_positive_definite :
  positive_definite (as_G (assemble (offset_program F))).
Proof.
by rewrite offset_program_assembles; apply: positive_definite_scalar; rewrite ltr0n.
Qed.

Lemma degenerate_not_success (E : EigenBackend F) :
  LLT_sound E ->
  LLT_info E (as_G (assemble (degenerate_program F))) <> Success.
Proof.
move=> sound; rewrite degenerate_program_assembles /=.
move=> /sound /(_ (const_mx 1)).
rewrite (selfadjoint_lower_sym (symmetric0 F 2)) mul0mx dot0r ltxx => pd.
suff: false by [].
by apply: pd; apply/eqP => /matrixP /(_ 0 0) /eqP; rewrite !mxE oner_eq0.
Qed.

End ConcreteProblems.

(** ** Which strategy [Solve] runs *)
Section Strategies.

Variable F : realFieldType.
Variable Var : Type.
Variable n : nat.
Implicit Type prog : MathematicalProgram F Var n.
Implicit Types E : EigenBackend F.

Lemma kkt_point_success E (P : Assembled F n) :
  LLT_info E (as_G P) = Success ->
  kkt_point E P = (range_space E (as_G P) (as_c P) (as_A P) (as_b P)).1.
Proof. by rewrite /kkt_point => ->. Qed.

Lemma kkt_point_failure E (P : Assembled F n) :
  LLT_info E (as_G P) <> Success ->
  kkt_point E P = full_system E (as_G P) (as_c P) (as_A P) (as_b P).
Proof. by rewrite /kkt_point; case: (LLT_info E (as_G P)). Qed.

Lemma kkt_point_same_range_space E E' (P : Assembled F n) :
  same_LLT_info E E' -> same_LLT_solve E E' -> same_QR_solve E E' ->
  LLT_info E (as_G P) = Success -> kkt_point E' P = kkt_point E P.
Proof.
move=> info solve qr ok; rewrite !kkt_point_success ?info //.
by rewrite /range_space /= !solve !qr.
Qed.

Lemma kkt_point_same_full_system E E' (P : Assembled F n) :
  same_LLT_info E E' -> same_SVD_solve E E' ->
  LLT_info E (as_G P) <> Success -> kkt_point E' P = kkt_point E P.
Proof.
move=> info svd not_ok; rewrite !kkt_point_failure ?info //.
by rewrite !full_systemE svd.
Qed.

Lemma num_constraints_nil prog :
  linear_equality_constraints prog = [::] -> num_constraints prog = 0%N.
Proof. by rewrite /num_constraints => ->. Qed.

End Strategies.

(** ** The unconstrained problem *)
Section Unconstrained.

Variable F : realFieldType.
Variable E : EigenBackend F.
Variables n m : nat.
Variables (G : 'M[F]_n) (c : 'cV[F]_n) (A : 'M[F]_(m, n)) (b : 'cV[F]_m).

Lemma range_space_unconstrained :
  LLT_solves E -> LLT_info E G = Success -> symmetric G -> m = 0%N ->
  G *m (range_space E G c A b).1 = - c.
Proof.
move=> solves ok symG m0; rewrite /range_space /= LLT_solveK //.
suff -> : A^T *m QR_solve E (A *m LLT_solve E G A^T)
                    ((LLT_solve E G A^T)^T *m c + b) = 0 by rewrite add0r.
move: (QR_solve _ _ _); move: A; rewrite m0 => A0 lambda.
by rewrite (flatmx0 lambda) mulmx0.
Qed.

Lemma positive_definite_ge0 (x : 'cV[F]_n) :
  positive_definite G -> 0 <= dot x (G *m x).
Proof.
move=> pdG; have [-> | /pdG /ltW //] := eqVneq x 0.
by rewrite dot0l.
Qed.

(** A stationary point of a convex objective is a minimiser. *)
Lemma stationary_minimizer (x z : 'cV[F]_n) :
  symmetric G -> positive_definite G -> G *m x = - c ->
  objective G c x <= objective G c z.
Proof.
move=> symG pdG Gx; rewrite -[z](subrK x); move: (z - x) => d.
have -> : objective G c (d + x)
          = objective G c x + 2%:R^-1 * dot d (G *m d).
  rewrite /objective !mulmxDr !dotDl !dotDr Gx !dotNr.
  have -> : dot x (G *m d) = - dot d c.
    by rewrite dot_mulmx symG Gx dotNl dotC.
  by rewrite (dotC c d) (dotC c x); field.
by rewrite lerDl mulr_ge0 ?invr_ge0 ?ler0n // positive_definite_ge0.
Qed.

End Unconstrained.

(** ** The cost [Solve] reports *)
Section ReportedCost.

Variable F : realFieldType.
Variable Var : Type.
Variable E : EigenBackend F.
Variable n : nat.

(** Whatever the strategy, the reported cost is the objective at the
    stored point less half of the linear term. *)
Lemma Solve_reported_cost (prog : MathematicalProgram F Var n) :
  supported prog ->
  exists prog',
    Solve E prog = Some (kSolutionFound, prog')
    /\ optimal_cost prog'
       = objective (as_G (assemble prog)) (as_c (assemble prog))
                   (decision_variable_values prog')
         - 2%:R^-1 * dot (as_c (assemble prog)) (decision_variable_values prog').
Proof.
move=> ok; rewrite SolveE ok; eexists; split; first by [].
by rewrite written_cost written_values reported_cost.
Qed.

End ReportedCost.

(** ** The end-to-end example: [x = (1/2, 1/2)] with cost [1/2] *)
Section EndToEnd.

Variable F : realFieldType.
Variable E : EigenBackend F.

Lemma example_solution :
  LLT_complete E -> LLT_solves E -> QR_solves E ->
  exists prog',
    [/\ Solve E (example_program F) = Some (kSolutionFound, prog'),
        decision_variable_values prog' = const_mx 2%:R^-1
      & optimal_cost prog' = 2%:R^-1].
Proof.
move=> complete solves qr.
pose G : 'M[F]_2 := 2%:R%:M; pose c : 'cV[F]_2 := 0.
pose A : 'M[F]_(1, 2) := const_mx 1; pose b : 'cV[F]_1 := const_mx 1.
have symG : symmetric G by apply: symmetric_scalar.
have pdG : positive_definite G.
  by apply: positive_definite_scalar; rewrite ltr0n.
have freeA : row_free A.
  by have := @example_row_free F; rewrite example_program_assembles.
have info : LLT_info E G = Success.
  by apply: complete; rewrite selfadjoint_lower_sym.
have feasible := range_space_feasible c b solves info symG qr pdG freeA.
have stationary := range_space_stationary c A b solves info symG.
rewrite SolveE example_program_assembles kkt_point_success //.
exists (written (example_program F) G c (range_space E G c A b).1).
move: stationary feasible; rewrite /G /c /A /b.
case: (range_space _ _ _ _ _) => x y /= stationary feasible.
have x_val : x = const_mx 2%:R^-1.
  have /matrixP /(_ 0 0) := feasible.
  rewrite !mxE !big_ord_recl big_ord0 !mxE addr0 !mul1r => sum1.
  have row i : 2%:R * x i 0 = y 0 0.
    have /matrixP /(_ i 0) := stationary.
    rewrite mul_scalar_mx !mxE big_ord1 !mxE mul1r addr0 => /eqP.
    by rewrite subr_eq0 => /eqP.
  have x01 : x 0 0 = x (lift 0 0) 0.
    by apply: (mulfI (x := 2%:R)); rewrite ?pnatr_eq0 // !row.
  apply/matrixP=> i j; rewrite [j]ord1 !mxE.
  have -> : x i 0 = x 0 0.
    by case: (unliftP 0 i) => [k | ] ->; rewrite ?[k]ord1 ?x01.
  apply: (mulfI (x := 2%:R)); rewrite ?pnatr_eq0 // divff ?pnatr_eq0 //.
  by rewrite -[RHS]sum1 -x01 mulr_natl mulr2n.
split=> //.
rewrite x_val addr0 mul_scalar_mx dotZr /dot.
by rewrite !big_ord_recl big_ord0 !mxE; field.
Qed.

End EndToEnd.

(** * The properties of the specification

    Each property is followed by its instance at a concrete program over
    the rationals, with the reference backend. *)

(** C1, at a program where the reported cost is not the objective.  One
    variable, the cost [x^2 + 2 x], no constraint: [Solve] stores [x = -1],
    where the objective [1/2 x' G x + c' x] is [-1], and reports the cost
    [0]: the source computes [0.5 * x.dot(G * x + c)], which takes half of
    the linear term. *)
Theorem offset_problem_cost :
  forall (F : realFieldType) (Var : Type) (E : EigenBackend F)
         (prog : MathematicalProgram F Var 1),
    LLT_complete E -> LLT_solves E ->
    supported prog ->
    assemble prog = offset_problem F ->
    exists prog',
      [/\ Solve E prog = Some (kSolutionFound, prog'),
          decision_variable_values prog' = const_mx (- 1),
          optimal_cost prog' = 0
        & objective (as_G (assemble prog)) (as_c (assemble prog))
                    (decision_variable_values prog') = - 1].
Proof.
move=> F Var E prog complete solves ok same.
pose G : 'M[F]_1 := 2%:R%:M; pose c : 'cV[F]_1 := const_mx 2%:R.
have symG : symmetric G by apply: symmetric_scalar.
have pdG : positive_definite G.
  by apply: positive_definite_scalar; rewrite ltr0n.
have info : LLT_info E G = Success.
  by apply: complete; rewrite selfadjoint_lower_sym.
rewrite SolveE ok same kkt_point_success //.
pose x := (range_space E G c (0 : 'M[F]_(0, 1)) 0).1.
have Gx : G *m x = - c by apply: range_space_unconstrained.
have x_val : x = const_mx (- 1).
  apply/matrixP=> i j; rewrite !ord1 [RHS]mxE.
  have /matrixP /(_ 0 0) := Gx; rewrite mul_scalar_mx !mxE => x2.
  by apply: (mulfI (x := 2%:R)); rewrite ?pnatr_eq0 // x2 mulrN mulr1.
exists (written prog G c x); split=> //.
  by rewrite written_cost Gx addNr dot0r mulr0.
rewrite written_values /objective -/G -/c Gx dotNr (dotC c) x_val.
rewrite dot11 !mxE; field.
Qed.

Lemma offset_problem_cost_witness :
  let E := exact_backend rat in
  let prog := offset_program rat in
  [/\ LLT_complete E, LLT_solves E, supported prog
    & assemble prog = offset_problem rat]
  /\ exists prog',
       [/\ Solve E prog = Some (kSolutionFound, prog'),
           decision_variable_values prog' = const_mx (- 1),
           optimal_cost prog' = 0
         & objective (as_G (assemble prog)) (as_c (assemble prog))
                     (decision_variable_values prog') = - 1].
Proof.
split.
  split; [exact: exact_LLT_complete | exact: exact_LLT_solves | by [] |].
  exact: offset_program_assembles.
exact: (offset_problem_cost (prog := offset_program rat)
          (@exact_LLT_complete rat) (@exact_LLT_solves rat) isT
          (@offset_program_assembles rat)).
Defined.

(** C2.  When the assembled [G] is symmetric positive definite and the rows
    of the assembled [A] are independent, [Solve] runs the range-space
    strategy, and the point [x] it stores and the multipliers [y] that the
    strategy computed on the way satisfy the KKT conditions exactly:
    [A x = b] and [G x + c - A' y = 0]. *)
Theorem range_space_satisfies_KKT :
  forall (F : realFieldType) (Var : Type) (E : EigenBackend F) n
         (prog : MathematicalProgram F Var n),
    LLT_complete E -> LLT_solves E -> QR_solves E ->
    supported prog ->
    let P := assemble prog in
    symmetric (as_G P) -> positive_definite (as_G P) -> row_free (as_A P) ->
    exists prog',
      Solve E prog = Some (kSolutionFound, prog')
      /\ let x := decision_variable_values prog' in
         let y := (range_space E (as_G P) (as_c P) (as_A P) (as_b P)).2 in
         [/\ x = (range_space E (as_G P) (as_c P) (as_A P) (as_b P)).1,
             as_A P *m x = as_b P
           & as_G P *m x + as_c P - (as_A P)^T *m y = 0].
Proof.
move=> F Var E n prog complete solves qr ok P symG pdG freeA.
have info : LLT_info E (as_G P) = Success.
  by apply: complete; rewrite selfadjoint_lower_sym.
rewrite SolveE ok kkt_point_success //; eexists; split; first by [].
rewrite written_values; split=> //.
  exact: range_space_feasible.
exact: range_space_stationary.
Qed.

Lemma range_space_satisfies_KKT_witness :
  let E := exact_backend rat in
  let prog := example_program rat in
  let P := assemble prog in
  ([/\ LLT_complete E, LLT_solves E, QR_solves E & supported prog]
   /\ [/\ symmetric (as_G P), positive_definite (as_G P) & row_free (as_A P)])
  /\ exists prog',
       Solve E prog = Some (kSolutionFound, prog')
       /\ let x := decision_variable_values prog' in
          let y := (range_space E (as_G P) (as_c P) (as_A P) (as_b P)).2 in
          [/\ x = (range_space E (as_G P) (as_c P) (as_A P) (as_b P)).1,
              as_A P *m x = as_b P
            & as_G P *m x + as_c P - (as_A P)^T *m y = 0].
Proof.
split.
  split; split=> //.
  - exact: exact_LLT_complete.
  - exact: exact_LLT_solves.
  - exact: exact_QR_solves.
  - exact: example_symmetric.
  - exact: example_positive_definite.
  - exact: example_row_free.
exact: (range_space_satisfies_KKT (prog := example_program rat)
          (@exact_LLT_complete rat)
          (@exact_LLT_solves rat) (@exact_QR_solves rat) isT
          (@example_symmetric rat) (@example_positive_definite rat)
          (@example_row_free rat)).
Defined.

(** C3.  On a program that holds only quadratic costs and linear equality
    constraints, [Solve] returns, and what it returns is the
    solution-found outcome; and whatever the program, no other outcome is
    ever returned. *)
Theorem Solve_returns_solution_found :
  forall (F : realFieldType) (Var : Type) (E : EigenBackend F) n
         (prog : MathematicalProgram F Var n),
    (supported prog ->
     exists prog', Solve E prog = Some (kSolutionFound, prog'))
    /\ (forall result prog',
          Solve E prog = Some (result, prog') -> result = kSolutionFound).
Proof.
move=> F Var E n prog; rewrite SolveE; split=> [-> | result prog'].
  by eexists.
by case: (supported prog) => // -[<-].
Qed.

Lemma Solve_returns_solution_found_witness :
  let E := exact_backend rat in
  let prog := example_program rat in
  supported prog
  /\ exists prog', Solve E prog = Some (kSolutionFound, prog').
Proof.
split=> //.
exact: (proj1 (Solve_returns_solution_found (exact_backend rat)
                 (example_program rat)) isT).
Defined.

(** C4.  The strategy is chosen by the status of the Cholesky factorisation
    of [G] alone.  When it reports success the result is the point of the
    range-space strategy, and it stays the same whatever the singular-value
    solver and the content of fresh storage are; when it reports anything
    else the result is the point of the full system, and it stays the same
    whatever the triangular and the QR solvers are. *)
Theorem strategy_chosen_by_LLT :
  forall (F : realFieldType) (Var : Type) (E : EigenBackend F) n
         (prog : MathematicalProgram F Var n),
    supported prog ->
    let P := assemble prog in
    (LLT_info E (as_G P) = Success ->
       Solve E prog
       = Some (kSolutionFound,
               written prog (as_G P) (as_c P)
                 (range_space E (as_G P) (as_c P) (as_A P) (as_b P)).1)
       /\ forall E', same_LLT_info E E' -> same_LLT_solve E E' ->
                     same_QR_solve E E' -> Solve E' prog = Solve E prog)
    /\ (LLT_info E (as_G P) <> Success ->
          Solve E prog
          = Some (kSolutionFound,
                  written prog (as_G P) (as_c P)
                    (full_system E (as_G P) (as_c P) (as_A P) (as_b P)))
          /\ forall E', same_LLT_info E E' -> same_SVD_solve E E' ->
                        Solve E' prog = Solve E prog).
Proof.
move=> F Var E n prog ok P; split=> info.
  split; first by rewrite SolveE ok kkt_point_success.
  move=> E' same_info same_solve same_qr.
  by rewrite !SolveE ok (kkt_point_same_range_space same_info).
split; first by rewrite SolveE ok kkt_point_failure.
move=> E' same_info same_svd.
by rewrite !SolveE ok (kkt_point_same_full_system same_info).
Qed.

Lemma strategy_chosen_by_LLT_witness :
  let E := exact_backend rat in
  (let prog := example_program rat in
   let P := assemble prog in
   [/\ supported prog, LLT_info E (as_G P) = Success
     & Solve (no_svd_backend rat) prog = Solve E prog])
  /\ (let prog := degenerate_program rat in
      let P := assemble prog in
      [/\ supported prog, LLT_info E (as_G P) <> Success
        & Solve (svd_only_backend rat) prog = Solve E prog]).
Proof.
split.
  have info : LLT_info (exact_backend rat)
                (as_G (assemble (example_program rat))) = Success.
    apply: exact_LLT_complete.
    rewrite (selfadjoint_lower_sym (@example_symmetric rat)).
    exact: example_positive_definite.
  split; [exact: isT | exact: info |].
  have [_ same] :=
    proj1 (strategy_chosen_by_LLT (exact_backend rat)
             (prog := example_program rat) isT) info.
  by apply: (same (no_svd_backend rat)) => *.
have info := degenerate_not_success (@exact_LLT_sound rat).
split; [exact: isT | exact: info |].
have [_ same] :=
  proj2 (strategy_chosen_by_LLT (exact_backend rat)
           (prog := degenerate_program rat) isT) info.
by apply: (same (svd_only_backend rat)) => *.
Defined.

(** C5.  The assembler accumulates the quadratic costs: entry [(I, J)] of
    the assembled [G] is the sum, over all cost bindings, of the
    coefficients [Q(i, j)] whose local variables have the global indices
    [(I, J)], and entry [I] of [c] is the sum of the [b(i)] whose variable
    has the global index [I]; a binding appended to the list adds its
    contribution to what was there.  For [Q = 2 I] over the variables 0 and
    1 and [Q = (3)] over the variable 1, [G(1, 1) = 5]. *)
Theorem assemble_costs_accumulates :
  (forall (F : realFieldType) (Var : Type) n
          (prog : MathematicalProgram F Var n) (I J : 'I_n),
      as_G (assemble prog) I J
        = \sum_(binding <- quadratic_costs prog) scatter_Q prog binding I J
      /\ as_c (assemble prog) I 0
        = \sum_(binding <- quadratic_costs prog) scatter_b prog binding I)
  /\ (forall (F : realFieldType) (Var : Type) n
             (prog : MathematicalProgram F Var n) Gc binding (I J : 'I_n),
        (add_quadratic_cost prog Gc binding).1 I J
          = Gc.1 I J + scatter_Q prog binding I J
        /\ (add_quadratic_cost prog Gc binding).2 I 0
          = Gc.2 I 0 + scatter_b prog binding I)
  /\ (forall F : realFieldType,
        as_G (assemble (overlap_program F)) 1 1 = 5%:R).
Proof.
split; first by move=> F Var n prog I J; rewrite as_G_sum as_c_sum.
split; first by move=> *; apply: add_quadratic_costE.
move=> F; rewrite as_G_sum /= !big_cons big_nil addr0 /scatter_Q /=.
rewrite !big_ord_recl !big_ord0 /= !mxE /= !addr0 !add0r.
by rewrite !mulr1n -natrD.
Qed.

(** C6.  The assembler stacks the equality constraints in the order of the
    list.  The number of rows [m] is the sum of the row counts, and every
    binding moves the row cursor on by its row count.  The rows of a
    binding start where the rows of the bindings before it end: row
    [r] of the binding is row [total_rows pre + r] of [A] and of [b]; [b]
    holds the right-hand side there, and [A] holds [placed r J 0] in column
    [J], which is zero when no variable of the binding has the global index
    [J] and is the coefficient of the (last) local column bound to [J]
    otherwise.  Two bindings of two and three rows give five rows, the
    first in rows 0-1 and the second in rows 2-4. *)
Theorem assemble_constraints_stacks :
  (forall (F : realFieldType) (Var : Type) n
          (prog : MathematicalProgram F Var n),
      num_constraints prog = total_rows (linear_equality_constraints prog))
  /\ (forall (F : realFieldType) (Var : Type) n
             (prog : MathematicalProgram F Var n) m (A : 'M[F]_(m, n))
             (b : 'cV[F]_m) constraint_index binding,
        (add_linear_equality prog (A, b, constraint_index) binding).2
        = (constraint_index + le_rows binding)%N)
  /\ (forall (F : realFieldType) (Var : Type) n
             (prog : MathematicalProgram F Var n) pre binding post,
        linear_equality_constraints prog = pre ++ binding :: post ->
        forall (I : 'I_(num_constraints prog)) (r : 'I_(le_rows binding))
               (J : 'I_n),
          I = (total_rows pre + r)%N :> nat ->
          as_A (assemble prog) I J = placed prog r J 0
          /\ as_b (assemble prog) I 0 = lower_bound binding r 0)
  /\ (forall (F : realFieldType) (Var : Type) n
             (prog : MathematicalProgram F Var n) binding
             (r : 'I_(le_rows binding)) (J : 'I_n),
        ((forall i : 'I_(le_size binding), le_index prog i <> J) ->
         placed prog r J 0 = 0)
        /\ (forall i : 'I_(le_size binding),
              le_index prog i = J ->
              (forall i' : 'I_(le_size binding),
                 (i < i')%N -> le_index prog i' <> J) ->
              placed prog r J 0 = le_A binding r i))
  /\ (forall (F : realFieldType) (Var : Type) n
             (prog : MathematicalProgram F Var n) term1 term2,
        linear_equality_constraints prog = [:: term1; term2] ->
        le_rows term1 = 2%N -> le_rows term2 = 3%N ->
        num_constraints prog = 5%N
        /\ (forall (I : 'I_(num_constraints prog)) (r : 'I_(le_rows term1))
                   (J : 'I_n),
              I = r :> nat ->
              as_A (assemble prog) I J = placed prog r J 0
              /\ as_b (assemble prog) I 0 = lower_bound term1 r 0)
        /\ (forall (I : 'I_(num_constraints prog)) (r : 'I_(le_rows term2))
                   (J : 'I_n),
              I = (2 + r)%N :> nat ->
              as_A (assemble prog) I J = placed prog r J 0
              /\ as_b (assemble prog) I 0 = lower_bound term2 r 0)).
Proof.
split; first by move=> *; apply: num_constraintsE.
split; first by [].
split; first by move=> F Var n prog pre binding post eqs I r J; apply: as_row eqs.
split.
  move=> F Var n prog binding r J.
  by split; [apply: placed_none | apply: placed_last].
move=> F Var n prog term1 term2 eqs rows1 rows2.
split; first by rewrite num_constraintsE eqs /total_rows /= rows1 rows2.
split=> I r J I_r.
  by apply: (@as_row _ _ _ _ [::] term1 [:: term2]).
apply: (@as_row _ _ _ _ [:: term1] term2 [::]) => //.
by rewrite /total_rows /= rows1 addn0.
Qed.

Lemma assemble_constraints_stacks_witness :
  let prog := stacked_program rat in
  let term1 := stacked_equality 2 0 (1 : rat) in
  let term2 := stacked_equality 3 1 (2%:R : rat) in
  [/\ linear_equality_constraints prog = [:: term1; term2],
      le_rows term1 = 2%N & le_rows term2 = 3%N]
  /\ [/\ num_constraints prog = 5%N,
         forall (I : 'I_(num_constraints prog)) (r : 'I_(le_rows term1))
                (J : 'I_2),
           I = r :> nat ->
           as_A (assemble prog) I J = placed prog r J 0
           /\ as_b (assemble prog) I 0 = lower_bound term1 r 0
       & forall (I : 'I_(num_constraints prog)) (r : 'I_(le_rows term2))
                (J : 'I_2),
           I = (2 + r)%N :> nat ->
           as_A (assemble prog) I J = placed prog r J 0
           /\ as_b (assemble prog) I 0 = lower_bound term2 r 0].
Proof.
split=> //.
have [rows [first second]] :=
  proj2 (proj2 (proj2 (proj2 assemble_constraints_stacks))) rat nat 2%N
    (stacked_program rat) (stacked_equality 2 0 (1 : rat))
    (stacked_equality 3 1 (2%:R : rat)) erefl erefl erefl.
by split.
Defined.

(** C7.  A program with two variables that assembles to [G = 0], [c = 0],
    [A = I], [b = (3, 4)]: the Cholesky factorisation does not succeed,
    [Solve] runs the full system, stores [x = (3, 4)] and reports the
    cost 0. *)
Theorem degenerate_problem_falls_back :
  forall (F : realFieldType) (Var : Type) (E : EigenBackend F)
         (prog : MathematicalProgram F Var 2),
    LLT_sound E -> SVD_solves E ->
    supported prog ->
    assemble prog = degenerate_problem F ->
    LLT_info E (as_G (assemble prog)) <> Success
    /\ exists prog',
         [/\ Solve E prog = Some (kSolutionFound, prog'),
             decision_variable_values prog'
               = full_system E (as_G (assemble prog)) (as_c (assemble prog))
                             (as_A (assemble prog)) (as_b (assemble prog)),
             decision_variable_values prog' = \col_i (3 + i)%:R
           & optimal_cost prog' = 0].
Proof.
move=> F Var E prog sound svd ok same.
have info : LLT_info E (as_G (assemble prog)) <> Success.
  rewrite same /= => /sound /(_ (const_mx 1)).
  rewrite (selfadjoint_lower_sym (symmetric0 F 2)).
  rewrite mul0mx dot0r ltxx => pd; suff: false by [].
  by apply: pd; apply/eqP => /matrixP /(_ 0 0) /eqP; rewrite !mxE oner_eq0.
split=> //; rewrite SolveE ok kkt_point_failure //.
eexists; split; [by [] | by [] | | ]; last first.
  by rewrite written_cost same /= mul0mx addr0 dot0r mulr0.
rewrite written_values same /= full_systemE.
set K := block_mx _ _ _ _; set rhs := col_mx _ _.
have unitK : K \in unitmx.
  have [] // := @mulmx1_unit _ _ K (block_mx 0 1%:M (- 1%:M) 0).
  rewrite /K mulmx_block !mul0mx !mulmx0 trmx1 mulNmx mulmxN !mul1mx opprK.
  by rewrite !addr0 !add0r -scalar_mx_block.
have := svd _ K rhs unitK; move: (SVD_solve E K rhs) => sol.
rewrite -{1}[sol]vsubmxK /K /rhs mul_block_col !mul0mx !mul1mx add0r addr0.
by case/eq_col_mx.
Qed.

Lemma degenerate_problem_falls_back_witness :
  let E := exact_backend rat in
  let prog := degenerate_program rat in
  [/\ LLT_sound E, SVD_solves E, supported prog
    & assemble prog = degenerate_problem rat]
  /\ (LLT_info E (as_G (assemble prog)) <> Success
      /\ exists prog',
           [/\ Solve E prog = Some (kSolutionFound, prog'),
               decision_variable_values prog'
                 = full_system E (as_G (assemble prog)) (as_c (assemble prog))
                               (as_A (assemble prog)) (as_b (assemble prog)),
               decision_variable_values prog' = \col_i (3 + i)%:R
             & optimal_cost prog' = 0]).
Proof.
split.
  split; [exact: exact_LLT_sound | exact: exact_SVD_solves | by [] |].
  exact: degenerate_program_assembles.
exact: (degenerate_problem_falls_back (prog := degenerate_program rat)
          (@exact_LLT_sound rat) (@exact_SVD_solves rat) isT
          (@degenerate_program_assembles rat)).
Defined.

(** C8.  The big matrix of the full system is [[G, -A'; A, 0]] and its
    right-hand side is [-c] over [b], whatever the fresh storage held; the
    system is solved by the singular-value solver, and the point of the
    strategy is the first [n] entries of that solution.  This is the point
    [Solve] stores when the Cholesky factorisation does not succeed. *)
Theorem full_system_is_augmented_KKT :
  forall (F : realFieldType) (E : EigenBackend F) n m
         (G : 'M[F]_n) (c : 'cV[F]_n) (A : 'M[F]_(m, n)) (b : 'cV[F]_m),
    [/\ A_full E G A = block_mx G (- A^T) A 0,
        b_full E c b = col_mx (- c) b,
        full_system E G c A b
          = usubmx (SVD_solve E (A_full E G A) (b_full E c b))
      & forall i : 'I_n,
          full_system E G c A b i 0
          = SVD_solve E (A_full E G A) (b_full E c b) (lshift m i) 0]
    /\ forall (Var : Type) (prog : MathematicalProgram F Var n),
         supported prog ->
         LLT_info E (as_G (assemble prog)) <> Success ->
         exists prog',
           Solve E prog = Some (kSolutionFound, prog')
           /\ decision_variable_values prog'
              = full_system E (as_G (assemble prog)) (as_c (assemble prog))
                            (as_A (assemble prog)) (as_b (assemble prog)).
Proof.
move=> F E n m G c A b; split.
  split; [exact: A_fullE | exact: b_fullE | exact: segment_usubmx |].
  by move=> i; rewrite /full_system segment_usubmx mxE.
move=> Var prog ok info; rewrite SolveE ok kkt_point_failure //.
by eexists; split.
Qed.

Lemma full_system_is_augmented_KKT_witness :
  let E := exact_backend rat in
  let prog := degenerate_program rat in
  (supported prog /\ LLT_info E (as_G (assemble prog)) <> Success)
  /\ exists prog',
       Solve E prog = Some (kSolutionFound, prog')
       /\ decision_variable_values prog'
          = full_system E (as_G (assemble prog)) (as_c (assemble prog))
                        (as_A (assemble prog)) (as_b (assemble prog)).
Proof.
have info := degenerate_not_success (@exact_LLT_sound rat).
split=> //.
exact: (proj2 (full_system_is_augmented_KKT (exact_backend rat)
                 (0 : 'M[rat]_2) 0 (0 : 'M[rat]_(0, 2)) 0)
          nat (degenerate_program rat) isT info).
Defined.

(** C9.  [Solve] is deterministic: two runs whose programs assemble to the
    same problem, with the same decompositions, return the same outcome,
    the same point and the same cost, whatever the programs held before
    and whatever the fresh storage of either run contains. *)
Theorem Solve_deterministic :
  forall (F : realFieldType) (Var : Type) (E1 E2 : EigenBackend F) n
         (prog1 prog2 : MathematicalProgram F Var n),
    same_LLT_info E1 E2 -> same_LLT_solve E1 E2 ->
    same_QR_solve E1 E2 -> same_SVD_solve E1 E2 ->
    supported prog1 -> supported prog2 ->
    assemble prog1 = assemble prog2 ->
    exists result after1 after2,
      [/\ Solve E1 prog1 = Some (result, after1),
          Solve E2 prog2 = Some (result, after2),
          decision_variable_values after1 = decision_variable_values after2,
          optimal_cost after1 = optimal_cost after2
        & solver_result after1 = solver_result after2].
Proof.
move=> F Var E1 E2 n prog1 prog2 info solve qr svd ok1 ok2 same.
rewrite !SolveE ok1 ok2 same.
have -> : kkt_point E2 (assemble prog2) = kkt_point E1 (assemble prog2).
  have [ok | not_ok] : LLT_info E1 (as_G (assemble prog2)) = Success
                       \/ LLT_info E1 (as_G (assemble prog2)) <> Success.
  - by case: (LLT_info E1 _); [left | right | right | right].
  - exact: kkt_point_same_range_space.
  - exact: kkt_point_same_full_system.
by do 3!eexists; split.
Qed.

Lemma Solve_deterministic_witness :
  let E1 := exact_backend rat in
  let E2 := exact_backend_over (fun p q => const_mx (1 : rat)) in
  let prog1 := example_program rat in
  let prog2 := solved_before (example_program rat) in
  ([/\ same_LLT_info E1 E2, same_LLT_solve E1 E2, same_QR_solve E1 E2
     & same_SVD_solve E1 E2]
   /\ [/\ supported prog1, supported prog2
        & assemble prog1 = assemble prog2])
  /\ exists result after1 after2,
       [/\ Solve E1 prog1 = Some (result, after1),
           Solve E2 prog2 = Some (result, after2),
           decision_variable_values after1 = decision_variable_values after2,
           optimal_cost after1 = optimal_cost after2
         & solver_result after1 = solver_result after2].
Proof.
split; first by split; split.
exact: (@Solve_deterministic rat nat (exact_backend rat)
          (exact_backend_over (fun p q => const_mx (1 : rat))) 2%N
          (example_program rat) (solved_before (example_program rat))
          (fun n G => erefl) (fun n p G B => erefl) (fun m p S r => erefl)
          (fun k S r => erefl) isT isT erefl).
Defined.

(** C10.  Without equality constraints and with a symmetric positive
    definite [G], [Solve] runs the range-space strategy on empty [A], [b]
    and multipliers, and the point it stores is the unconstrained
    minimiser: it solves [G x = -c], it is the only solution, and no point
    has a smaller objective. *)
Theorem unconstrained_minimizer :
  forall (F : realFieldType) (Var : Type) (E : EigenBackend F) n
         (prog : MathematicalProgram F Var n),
    LLT_complete E -> LLT_solves E ->
    supported prog ->
    linear_equality_constraints prog = [::] ->
    let P := assemble prog in
    symmetric (as_G P) -> positive_definite (as_G P) ->
    [/\ as_m P = 0%N, LLT_info E (as_G P) = Success
      & exists prog',
          Solve E prog = Some (kSolutionFound, prog')
          /\ let x := decision_variable_values prog' in
             [/\ x = (range_space E (as_G P) (as_c P) (as_A P) (as_b P)).1,
                 as_G P *m x = - as_c P,
                 forall z, as_G P *m z = - as_c P -> z = x
               & forall z, objective (as_G P) (as_c P) x
                           <= objective (as_G P) (as_c P) z]].
Proof.
move=> F Var E n prog complete solves ok no_eqs P symG pdG.
have m0 : as_m P = 0%N by apply: num_constraints_nil.
have info : LLT_info E (as_G P) = Success.
  by apply: complete; rewrite selfadjoint_lower_sym.
split=> //; rewrite SolveE ok kkt_point_success //; eexists; split; first by [].
rewrite written_values.
have Gx := range_space_unconstrained (as_c P) (as_A P) (as_b P) solves info
             symG m0.
split=> // z; last exact: stationary_minimizer.
rewrite -Gx => /(congr1 (mulmx (invmx (as_G P)))).
by rewrite !mulKmx ?positive_definite_unit.
Qed.

Lemma unconstrained_minimizer_witness :
  let E := exact_backend rat in
  let prog := offset_program rat in
  let P := assemble prog in
  ([/\ LLT_complete E, LLT_solves E, supported prog
     & linear_equality_constraints prog = [::]]
   /\ (symmetric (as_G P) /\ positive_definite (as_G P)))
  /\ [/\ as_m P = 0%N, LLT_info E (as_G P) = Success
       & exists prog',
           Solve E prog = Some (kSolutionFound, prog')
           /\ let x := decision_variable_values prog' in
              [/\ x = (range_space E (as_G P) (as_c P) (as_A P) (as_b P)).1,
                  as_G P *m x = - as_c P,
                  forall z, as_G P *m z = - as_c P -> z = x
                & forall z, objective (as_G P) (as_c P) x
                            <= objective (as_G P) (as_c P) z]].
Proof.
split.
  split; split=> //.
  - exact: exact_LLT_complete.
  - exact: exact_LLT_solves.
  - exact: offset_symmetric.
  - exact: offset_positive_definite.
exact: (unconstrained_minimizer (prog := offset_program rat)
          (@exact_LLT_complete rat) (@exact_LLT_solves rat) isT erefl
          (@offset_symmetric rat) (@offset_positive_definite rat)).
Defined.

(** * Theory for the further properties *)

Section SelectionTheory.

Variable F : realFieldType.
Variable n : nat.

Lemma sum_pick (x : 'cV[F]_n) (r : nat) :
  \sum_(I < n) (I == r :> nat)%:R * x I 0 = coeff x r 0.
Proof.
have [lt_r | le_nr] := ltnP r n.
  rewrite -[r]/(val (Ordinal lt_r)) (coeff_ord x (Ordinal lt_r) 0).
  rewrite (bigD1 (Ordinal lt_r)) //= eqxx mul1r big1 ?addr0 // => J neqJ.
  by rewrite -val_eqE /= in neqJ; rewrite (negbTE neqJ) mul0r.
rewrite /coeff insubF ?ltnNge ?le_nr //; apply: big1 => I _.
by rewrite (ltn_eqF (leq_trans (ltn_ord I) le_nr)) mul0r.
Qed.

Lemma selection_values k (v : 'I_k -> nat) (x : 'cV[F]_n) :
  selection F n v *m x = \col_i coeff x (v i) 0.
Proof.
apply/matrixP=> i j; rewrite ord1 !mxE -sum_pick.
by apply: eq_bigr => I _; rewrite mxE.
Qed.

End SelectionTheory.

(** ** The assembled costs through selection matrices *)
Section CostMeaning.

Variable F : realFieldType.
Variable Var : Type.
Variable n : nat.
Variable prog : MathematicalProgram F Var n.

Local Notation QCB := (QuadraticCostBinding F Var).
Local Notation sel t := (selection F n (@qc_index F Var n prog t)).

Lemma dot_sumr T (s : seq T) k (x : 'cV[F]_k) (f : T -> 'cV[F]_k) :
  dot x (\sum_(t <- s) f t) = \sum_(t <- s) dot x (f t).
Proof.
elim: s => [|t s IHs]; first by rewrite !big_nil dot0r.
by rewrite !big_cons dotDr IHs.
Qed.

Lemma scatter_Q_selection (t : QCB) (I J : 'I_n) :
  scatter_Q prog t I J = ((sel t)^T *m Q t *m sel t) I J.
Proof.
rewrite /scatter_Q mxE exchange_big /=; apply: eq_bigr => j _.
rewrite mxE big_distrl /=; apply: eq_bigr => i _.
rewrite !mxE /qc_index.
case: (I == _ :> nat); case: (J == _ :> nat);
  by rewrite /= ?mul1r ?mulr1 ?mul0r ?mulr0.
Qed.

Lemma scatter_b_selection (t : QCB) (I : 'I_n) :
  scatter_b prog t I = ((sel t)^T *m qc_b t) I 0.
Proof.
rewrite /scatter_b mxE; apply: eq_bigr => i _; rewrite !mxE /qc_index.
by case: (I == _ :> nat); rewrite ?mul1r ?mul0r.
Qed.

Lemma as_G_selection :
  as_G (assemble prog)
  = \sum_(t <- quadratic_costs prog) (sel t)^T *m Q t *m sel t.
Proof.
apply/matrixP=> I J; rewrite as_G_sum summxE.
by apply: eq_bigr => t _; rewrite scatter_Q_selection.
Qed.

Lemma as_c_selection :
  as_c (assemble prog)
  = \sum_(t <- quadratic_costs prog) (sel t)^T *m qc_b t.
Proof.
apply/matrixP=> I J; rewrite ord1 as_c_sum summxE.
by apply: eq_bigr => t _; rewrite scatter_b_selection.
Qed.

Lemma qc_valuesE (t : QCB) (x : 'cV[F]_n) : qc_values prog t x = sel t *m x.
Proof. by rewrite selection_values. Qed.

Lemma quadratic_form_sum (x : 'cV[F]_n) :
  dot x (as_G (assemble prog) *m x)
  = \sum_(t <- quadratic_costs prog)
      dot (qc_values prog t x) (Q t *m qc_values prog t x).
Proof.
rewrite as_G_selection mulmx_suml dot_sumr; apply: eq_bigr => t _.
by rewrite qc_valuesE -!mulmxA dot_mulmx trmxK.
Qed.

Lemma linear_form_sum (x : 'cV[F]_n) :
  dot (as_c (assemble prog)) x
  = \sum_(t <- quadratic_costs prog) dot (qc_b t) (qc_values prog t x).
Proof.
rewrite as_c_selection dotC dot_sumr; apply: eq_bigr => t _.
by rewrite qc_valuesE dot_mulmx trmxK dotC.
Qed.

Lemma objective_sum (x : 'cV[F]_n) :
  objective (as_G (assemble prog)) (as_c (assemble prog)) x
  = \sum_(t <- quadratic_costs prog) binding_cost prog t x.
Proof.
rewrite /objective quadratic_form_sum linear_form_sum mulr_sumr -big_split.
by apply: eq_bigr.
Qed.

End CostMeaning.

Section Every.

Variable T : Type.

Lemma every_cat (P : T -> Prop) (s1 s2 : seq T) :
  every P (s1 ++ s2) <-> every P s1 /\ every P s2.
Proof.
elim: s1 => [|t s1 [IH1 IH2]] /=; first by split=> [|[]].
split=> [[Pt /IH1 [P1 P2]] | [[Pt P1] P2]] //.
by split=> //; apply: IH2.
Qed.

Lemma every_split (P : T -> Prop) (s : seq T) :
  every P s <-> forall pre t post, s = pre ++ t :: post -> P t.
Proof.
split=> [Ps pre t post eq_s | Ps].
  by move: Ps; rewrite eq_s => /every_cat [_ []].
elim: s Ps => [|t s IHs] Ps //=; split; first exact: (Ps [::] t s).
by apply: IHs => pre t' post eq_s; apply: (Ps (t :: pre) t' post); rewrite eq_s.
Qed.

Lemma eq_big_every (R : Type) (idx : R) (op : R -> R -> R) (P : T -> Prop)
    (s : seq T) (f g : T -> R) :
  every P s -> (forall t, P t -> f t = g t) ->
  \big[op/idx]_(t <- s) f t = \big[op/idx]_(t <- s) g t.
Proof.
move=> Ps fg; elim: s Ps => [|t s IHs] /=; first by rewrite !big_nil.
by case=> Pt /IHs eq_s; rewrite !big_cons fg // eq_s.
Qed.

End Every.

(** ** Symmetry and convexity of the assembled costs *)
Section CostConvexity.

Variable F : realFieldType.
Variable Var : Type.
Variable n : nat.
Variable prog : MathematicalProgram F Var n.

Local Notation sel t := (selection F n (@qc_index F Var n prog t)).

Lemma as_G_symmetric :
  every (fun t => symmetric (Q t)) (quadratic_costs prog) ->
  symmetric (as_G (assemble prog)).
Proof.
move=> symQ; rewrite /symmetric as_G_selection raddf_sum /=.
apply: eq_big_every symQ _ => t symt.
by rewrite !trmx_mul trmxK symt mulmxA.
Qed.

Lemma as_G_semidefinite :
  every (fun t => positive_semidefinite (Q t)) (quadratic_costs prog) ->
  positive_semidefinite (as_G (assemble prog)).
Proof.
move=> psdQ x; rewrite quadratic_form_sum.
elim: (quadratic_costs prog) psdQ => [|t s IHs] /=; first by rewrite big_nil.
by case=> psdt /IHs ge0; rewrite big_cons addr_ge0.
Qed.

End CostConvexity.

(** ** The assembled constraints at a point *)
Section ConstraintMeaning.

Variable F : realFieldType.
Variable Var : Type.
Variable n : nat.
Variable prog : MathematicalProgram F Var n.

Local Notation LEB := (LinearEqualityBinding F Var).

Lemma placed_sum (t : LEB) (r : 'I_(le_rows t)) (J : 'I_n) :
  injective (@le_index F Var n prog t) ->
  placed prog r J 0
  = \sum_(i < le_size t) le_A t r i * (J == le_index prog i :> nat)%:R.
Proof.
move=> inj_v.
case: (pickP (fun i : 'I_(le_size t) => J == le_index prog i :> nat))
    => [i hit | none].
  have later (i' : 'I_(le_size t)) : (i < i')%N -> le_index prog i' <> J.
    move=> lt_i eq_J; move: lt_i.
    by rewrite (inj_v i' i) ?ltnn // eq_J (eqP hit).
  rewrite (@placed_last _ _ _ _ t r J i (esym (eqP hit)) later).
  rewrite (bigD1 i) //= hit mulr1 big1 ?addr0 // => i' neq_i.
  case: eqP => [eq_J|]; last by rewrite mulr0.
  by case/eqP: neq_i; apply: inj_v; rewrite -eq_J (eqP hit).
have no_hit (i : 'I_(le_size t)) : le_index prog i <> J.
  by move=> eq_J; have := none i; rewrite eq_J eqxx.
rewrite (@placed_none _ _ _ _ t r J no_hit) big1 // => i _.
by rewrite none mulr0.
Qed.

Lemma add_linear_equality_rhs m (A : 'M[F]_(m, n)) (b : 'cV[F]_m) ci
    (t : LEB) (I : 'I_m) :
  (add_linear_equality prog (A, b, ci) t).1.2 I 0
  = if (ci <= I)%N && (I < ci + le_rows t)%N
    then coeff (lower_bound t) (I - ci) 0 else b I 0.
Proof.
by rewrite /= /set_segment set_blockE segment_all !andbA !andbT subn0.
Qed.

Lemma later_bindings_keep_rhs m (post : seq LEB) (A : 'M[F]_(m, n))
    (b : 'cV[F]_m) ci (I : 'I_m) :
  (I < ci)%N ->
  (foldl (@add_linear_equality F Var n prog m) (A, b, ci) post).1.2 I 0
  = b I 0.
Proof.
elim: post A b ci => [|t post IHp] A b ci lt_I //.
rewrite -[foldl _ _ (t :: post)]/(foldl _
           (add_linear_equality prog (A, b, ci) t) post).
have := add_linear_equality_rhs A b ci t I.
have := add_linear_equality_index prog A b ci t.
case: (add_linear_equality _ _ _) => [[A1 b1] ci1] /= -> b1E.
by rewrite (IHp A1 b1 _ (ltn_addr (le_rows t) lt_I)) b1E leqNgt lt_I.
Qed.

Lemma foldl_rhs m (pre post : seq LEB) (t : LEB) (A : 'M[F]_(m, n))
    (b : 'cV[F]_m) ci (I : 'I_m) (r : 'I_(le_rows t)) :
  I = (ci + total_rows pre + r)%N :> nat ->
  (foldl (@add_linear_equality F Var n prog m) (A, b, ci)
         (pre ++ t :: post)).1.2 I 0 = lower_bound t r 0.
Proof.
elim: pre A b ci => [|t0 pre IHp] A b ci.
  rewrite /total_rows /= addn0 => I_r.
  rewrite -[foldl _ _ _]/(foldl _ (add_linear_equality prog (A, b, ci) t) post).
  have := add_linear_equality_rhs A b ci t I.
  have := add_linear_equality_index prog A b ci t.
  case: (add_linear_equality _ _ _) => [[A1 b1] ci1] /= -> b1E.
  rewrite later_bindings_keep_rhs ?I_r ?ltn_add2l // b1E.
  by rewrite I_r leq_addr ltn_add2l ltn_ord addKn (coeff_ord _ r 0).
rewrite /total_rows [sumn _]/= addnA => I_r.
rewrite cat_cons -[foldl _ _ (t0 :: _)]/(foldl _
           (add_linear_equality prog (A, b, ci) t0) (pre ++ t :: post)).
have := add_linear_equality_index prog A b ci t0.
by case: (add_linear_equality _ _ _) => [[A1 b1] ci1] /= ->; apply: IHp.
Qed.

Lemma as_b_row pre (t : LEB) post (I : 'I_(num_constraints prog))
    (r : 'I_(le_rows t)) :
  linear_equality_constraints prog = pre ++ t :: post ->
  I = (total_rows pre + r)%N :> nat ->
  as_b (assemble prog) I 0 = lower_bound t r 0.
Proof.
move=> eqs I_r; rewrite /assemble /= /assemble_constraints eqs.
by apply: foldl_rhs; rewrite add0n.
Qed.

Lemma as_A_row pre (t : LEB) post (I : 'I_(num_constraints prog))
    (r : 'I_(le_rows t)) (x : 'cV[F]_n) :
  linear_equality_constraints prog = pre ++ t :: post ->
  injective (@le_index F Var n prog t) ->
  I = (total_rows pre + r)%N :> nat ->
  (as_A (assemble prog) *m x) I 0 = (le_A t *m le_values prog t x) r 0.
Proof.
move=> eqs inj_v I_r; rewrite !mxE.
under eq_bigr => J _.
  have [-> _] := @as_row F Var n prog pre t post I r J eqs I_r.
  rewrite placed_sum // big_distrl /=; over.
rewrite exchange_big /=; apply: eq_bigr => i _.
rewrite mxE -sum_pick big_distrr /=.
by apply: eq_bigr => J _; rewrite mulrA.
Qed.

Lemma row_owner (s : seq LEB) (I : nat) :
  (I < total_rows s)%N ->
  exists pre t post (r : 'I_(le_rows t)),
    s = pre ++ t :: post /\ I = (total_rows pre + r)%N.
Proof.
elim: s I => [|t s IHs] I //; rewrite /total_rows /= => lt_I.
have [lt_t | le_t] := ltnP I (le_rows t).
  by exists [::], t, s, (Ordinal lt_t).
have [|pre [t' [post [r [-> I_r]]]]] := IHs (I - le_rows t)%N.
  by rewrite ltn_subLR.
exists (t :: pre), t', post, r; split=> //.
by rewrite /total_rows /= -addnA -[in RHS]/(total_rows pre) -I_r subnKC.
Qed.

Lemma feasible_iff (x : 'cV[F]_n) :
  equalities_distinct prog ->
  as_A (assemble prog) *m x = as_b (assemble prog)
  <-> every (fun t => binding_holds prog t x)
            (linear_equality_constraints prog).
Proof.
move=> /every_split distinct; split=> [Ax | /every_split holds].
  apply/every_split => pre t post eqs; apply/matrixP=> r j; rewrite ord1.
  have lt_I : (total_rows pre + r < num_constraints prog)%N.
    rewrite num_constraintsE eqs /total_rows map_cat sumn_cat /=.
    by rewrite ltn_add2l ltn_addr.
  rewrite -(as_A_row x (I := Ordinal lt_I) eqs (distinct _ _ _ eqs) erefl).
  by rewrite -(as_b_row (I := Ordinal lt_I) eqs erefl) Ax.
apply/matrixP=> I j; rewrite ord1.
have [|pre [t [post [r [eqs I_r]]]]] :=
  @row_owner (linear_equality_constraints prog) I.
  by rewrite -num_constraintsE.
rewrite (as_A_row x eqs (distinct _ _ _ eqs) I_r) (as_b_row eqs I_r).
by rewrite (holds _ _ _ eqs).
Qed.

End ConstraintMeaning.

(** ** KKT points of convex problems *)
Section KKTTheory.

Variable F : realFieldType.
Variables n m : nat.
Variables (G : 'M[F]_n) (c : 'cV[F]_n) (A : 'M[F]_(m, n)) (b : 'cV[F]_m).

Lemma objective_shift (x d : 'cV[F]_n) :
  symmetric G ->
  objective G c (d + x)
  = objective G c x + 2%:R^-1 * dot d (G *m d) + dot d (G *m x + c).
Proof.
move=> symG; rewrite /objective !mulmxDr !dotDl !dotDr.
have -> : dot x (G *m d) = dot d (G *m x) by rewrite dot_mulmx symG dotC.
by rewrite (dotC c d) (dotC c x); field.
Qed.

Lemma kkt_gradient (x : 'cV[F]_n) (y : 'cV[F]_m) (d : 'cV[F]_n) :
  KKT G c A b x y -> A *m d = 0 -> dot d (G *m x + c) = 0.
Proof.
case=> _ /eqP; rewrite subr_eq0 => /eqP -> Ad0.
by rewrite dot_mulmx trmxK Ad0 dot0l.
Qed.

Lemma kkt_minimizer (x : 'cV[F]_n) (y : 'cV[F]_m) (z : 'cV[F]_n) :
  symmetric G -> positive_semidefinite G -> KKT G c A b x y ->
  A *m z = b -> objective G c x <= objective G c z.
Proof.
move=> symG psdG kkt Az; rewrite -[z](subrK x) objective_shift //.
have Ad : A *m (z - x) = 0.
  by case: kkt => Ax _; rewrite mulmxBr Az Ax subrr.
rewrite (kkt_gradient kkt Ad) addr0.
by rewrite lerDl mulr_ge0 ?invr_ge0 ?ler0n.
Qed.

Lemma kkt_strict_minimizer (x : 'cV[F]_n) (y : 'cV[F]_m) (z : 'cV[F]_n) :
  symmetric G -> positive_definite G -> KKT G c A b x y ->
  A *m z = b -> z != x -> objective G c x < objective G c z.
Proof.
move=> symG pdG kkt Az neq_zx; rewrite -[z](subrK x) objective_shift //.
have Ad : A *m (z - x) = 0.
  by case: kkt => Ax _; rewrite mulmxBr Az Ax subrr.
rewrite (kkt_gradient kkt Ad) addr0.
by rewrite ltrDl mulr_gt0 ?invr_gt0 ?ltr0n // pdG // subr_eq0.
Qed.

(** The matrix of the full system is nonsingular for a positive definite
    [G] and independent rows of [A]. *)
Lemma kkt_matrix_unit :
  positive_definite G -> row_free A -> block_mx G (- A^T) A 0 \in unitmx.
Proof.
move=> pdG freeA; rewrite -unitmx_tr -row_free_unit.
apply: inj_row_free => v vK.
have: block_mx G (- A^T) A 0 *m v^T = 0.
  by apply: trmx_inj; rewrite trmx_mul trmxK trmx0.
rewrite -{1}[v^T]vsubmxK mul_block_col mul0mx addr0 mulNmx => eq0.
have /eqP := congr1 usubmx eq0; have := congr1 dsubmx eq0.
rewrite !col_mxKu !col_mxKd !linear0 subr_eq0 => Au /eqP Gu.
have u0 : usubmx v^T = 0.
  apply/eqP/negPn/negP => /pdG.
  by rewrite Gu dot_mulmx trmxK Au dot0l ltxx.
have w0 : dsubmx v^T = 0.
  apply: trmx_inj; apply: (row_free_inj freeA); rewrite trmx0 mul0mx.
  have -> : (dsubmx v^T)^T *m A = (A^T *m dsubmx v^T)^T.
    by rewrite trmx_mul trmxK.
  by rewrite -Gu u0 mulmx0 trmx0.
by apply: trmx_inj; rewrite -[v^T]vsubmxK u0 w0 col_mx0 trmx0.
Qed.

End KKTTheory.

(** ** The range-space strategy on redundant constraints *)
Section Redundant.

Variable F : realFieldType.
Variables n m : nat.
Variables (G : 'M[F]_n) (c : 'cV[F]_n) (A : 'M[F]_(m, n)).
Variable M : 'M[F]_(n, m).

Hypothesis symG : symmetric G.
Hypothesis pdG : positive_definite G.
Hypothesis GM : G *m M = A^T.

Lemma schur_transpose : A *m M = M^T *m A^T.
Proof.
have AE : A = M^T *m G by rewrite -[G]symG -trmx_mul GM trmxK.
by rewrite {1}AE -mulmxA GM.
Qed.

Lemma schur_kernel (v : 'rV[F]_m) : v *m (A *m M) = 0 -> v *m A = 0.
Proof.
move=> vS0; apply: trmx_inj; rewrite trmx0 trmx_mul -GM -mulmxA.
suff -> : M *m v^T = 0 by rewrite mulmx0.
apply/eqP/negPn/negP => /pdG; rewrite mulmxA GM dotE -trmx_mul.
by rewrite -trmx_mul mulmxA -(mulmxA v) vS0 mul0mx trmx0 mxE ltxx.
Qed.

Lemma schur_range : (A^T <= A *m M)%MS.
Proof.
have le_S : (A *m M <= A^T)%MS by rewrite schur_transpose submxMl.
rewrite -(mxrank_leqif_sup le_S) eqn_leq mxrankS //= mxrank_tr.
have : (kermx (A *m M) <= kermx A)%MS.
  apply/rV_subP => v /sub_kermxP vS0; apply/sub_kermxP.
  exact: schur_kernel.
move/mxrankS; rewrite !mxrank_ker leq_sub2lE //.
exact: rank_leq_row.
Qed.

Lemma schur_consistent (z : 'cV[F]_n) :
  exists y, A *m M *m y = M^T *m c + A *m z.
Proof.
have unitG := positive_definite_unit pdG.
have MTE : M^T = A *m invmx G.
  by rewrite -[M^T](mulmxK unitG) -[G in M^T *m G]symG -trmx_mul GM trmxK.
have /submxP [D rD] : ((M^T *m c + A *m z)^T <= A *m M)%MS.
  apply: submx_trans schur_range.
  by rewrite MTE -mulmxA -mulmxDr trmx_mul submxMl.
exists D^T; apply: trmx_inj.
by rewrite rD trmx_mul trmxK schur_transpose trmx_mul !trmxK -schur_transpose.
Qed.

End Redundant.

(** ** What the two strategies return *)
Section StrategyFacts.

Variable F : realFieldType.
Variable E : EigenBackend F.
Variables n m : nat.
Variables (G : 'M[F]_n) (c : 'cV[F]_n) (A : 'M[F]_(m, n)) (b : 'cV[F]_m).

Local Notation x_A := (range_space E G c A b).1.
Local Notation y_A := (range_space E G c A b).2.
Local Notation M := (LLT_solve E G A^T).

Section RangeSpaceFacts.

Hypothesis llt_solves : LLT_solves E.
Hypothesis llt_ok : LLT_info E G = Success.
Hypothesis symG : symmetric G.

(** What is left of [A x - b] is what is left of the system for the
    multipliers. *)
Lemma range_space_residual :
  A *m x_A - b = A *m M *m y_A - (M^T *m c + b).
Proof.
rewrite /range_space /=.
have GM : G *m M = A^T by apply: LLT_solveK.
have AE : A = M^T *m G.
  by apply: trmx_inj; rewrite trmx_mul trmxK symG GM.
rewrite {1}AE -mulmxA LLT_solveK // mulmxBr mulmxA.
have -> : M^T *m A^T = A *m M by rewrite -trmx_mul (schur_sym symG GM).
by rewrite opprD addrA.
Qed.

Lemma range_space_kkt :
  QR_solves E -> positive_definite G -> row_free A ->
  KKT G c A b x_A y_A.
Proof.
move=> qr pdG freeA; split; last exact: range_space_stationary.
exact: range_space_feasible.
Qed.

Lemma range_space_kkt_consistent :
  QR_consistent E -> positive_definite G -> (exists z, A *m z = b) ->
  KKT G c A b x_A y_A.
Proof.
move=> qr pdG [z Az]; split; last exact: range_space_stationary.
apply/eqP; rewrite -subr_eq0 range_space_residual subr_eq0; apply/eqP.
rewrite /range_space /=; apply: qr; rewrite -Az.
have GM : G *m M = A^T by apply: LLT_solveK.
exact: (schur_consistent c symG pdG GM z).
Qed.

End RangeSpaceFacts.

Local Notation K := (block_mx G (- A^T) A 0).
Local Notation sol := (SVD_solve E K (col_mx (- c) b)).

Lemma full_system_kkt :
  SVD_solves E -> K \in unitmx ->
  KKT G c A b (full_system E G c A b) (dsubmx sol).
Proof.
move=> svd unitK; rewrite full_systemE.
have := svd _ K (col_mx (- c) b) unitK.
rewrite -{1}[sol]vsubmxK mul_block_col mul0mx addr0 mulNmx.
case/eq_col_mx => stationary feasible; split=> //.
by rewrite addrAC stationary addNr.
Qed.

Lemma kkt_solves_full_system (x : 'cV[F]_n) (y : 'cV[F]_m) :
  KKT G c A b x y -> K *m col_mx x y = col_mx (- c) b.
Proof.
case=> Ax stationary; rewrite mul_block_col mul0mx addr0 mulNmx Ax.
by congr (col_mx _ _); apply/eqP; rewrite -subr_eq0 opprK addrAC stationary.
Qed.

(** "As long as the quadratic cost matrix is symmetric and positive
    definite, both approaches should yield the same optimal point." *)
Lemma strategies_agree :
  LLT_solves E -> QR_solves E -> SVD_solves E ->
  LLT_info E G = Success -> symmetric G -> positive_definite G ->
  row_free A ->
  full_system E G c A b = x_A /\ dsubmx sol = y_A.
Proof.
move=> llt qr svd ok symG pdG freeA.
have unitK := kkt_matrix_unit pdG freeA.
have eq_sol : sol = col_mx x_A y_A.
  apply: (can_inj (mulKmx unitK)); rewrite (svd _ K (col_mx (- c) b) unitK).
  have kkt := range_space_kkt llt ok symG qr pdG freeA.
  by rewrite (kkt_solves_full_system kkt).
by rewrite full_systemE eq_sol col_mxKu col_mxKd.
Qed.

End StrategyFacts.

Section LeastSquaresBackend.

Variable F : realFieldType.

Lemma lsq_solve_consistent m p (S : 'M[F]_m) (r y : 'M[F]_(m, p)) :
  S *m y = r -> S *m (r^T *m pinvmx S^T)^T = r.
Proof.
move=> Sy; apply: trmx_inj; rewrite trmx_mul trmxK mulmxKpV //.
by rewrite -Sy trmx_mul submxMl.
Qed.

Lemma lsq_LLT_complete : LLT_complete (lsq_backend F).
Proof. exact: exact_LLT_complete. Qed.

Lemma lsq_LLT_sound : LLT_sound (lsq_backend F).
Proof. exact: exact_LLT_sound. Qed.

Lemma lsq_LLT_solves : LLT_solves (lsq_backend F).
Proof. exact: exact_LLT_solves. Qed.

Lemma lsq_QR_consistent : QR_consistent (lsq_backend F).
Proof. by move=> m p S r [y Sy] /=; apply: lsq_solve_consistent Sy. Qed.

Lemma lsq_QR_solves : QR_solves (lsq_backend F).
Proof.
move=> m p S r unitS; apply: lsq_QR_consistent.
by exists (invmx S *m r); rewrite mulKVmx.
Qed.

Lemma lsq_SVD_solves : SVD_solves (lsq_backend F).
Proof.
move=> k S r unitS /=; apply: (@lsq_solve_consistent _ _ _ _ (invmx S *m r)).
by rewrite mulKVmx.
Qed.

Lemma exact_solves_zero : solves_zero (exact_backend F).
Proof. by split=> *; rewrite /= mulmx0. Qed.

End LeastSquaresBackend.

(** ** Entries that no binding touches *)
Section Untouched.

Variable F : realFieldType.
Variable Var : Type.
Variable n : nat.
Variable prog : MathematicalProgram F Var n.

Lemma big_every0 (V : nmodType) T (P : T -> Prop) (s : seq T) (f : T -> V) :
  every P s -> (forall t, P t -> f t = 0) -> \sum_(t <- s) f t = 0.
Proof.
move=> Ps f0; rewrite (eq_big_every _ _ Ps f0) big1 //.
Qed.

Lemma without_cost_diag (I : 'I_n) :
  without_cost prog I -> as_G (assemble prog) I I = 0.
Proof.
move=> noI; rewrite as_G_sum; apply: big_every0 noI _ => t no_hit.
rewrite /scatter_Q big1 // => i _; rewrite big1 // => j _.
by case: eqP => // eq_I; case: (no_hit i).
Qed.

Lemma dot_delta (M : 'M[F]_n) (I : 'I_n) :
  dot (delta_mx I 0) (M *m delta_mx I 0) = M I I.
Proof.
have pick (f : 'I_n -> F) : \sum_k (k == I)%:R * f k = f I.
  rewrite (bigD1 I) //= eqxx mul1r big1 ?addr0 // => k neq_k.
  by rewrite (negbTE neq_k) mul0r.
rewrite -[RHS](pick (fun k => M k I)) /dot; apply: eq_bigr => k _.
rewrite !mxE eqxx andbT; congr (_ * _).
rewrite -[RHS](pick (fun j => M k j)); apply: eq_bigr => j _.
by rewrite !mxE eqxx andbT mulrC.
Qed.

Lemma without_cost_not_definite (I : 'I_n) :
  without_cost prog I ->
  ~ positive_definite (selfadjoint_lower (as_G (assemble prog))).
Proof.
move=> /without_cost_diag G0 /(_ (delta_mx I 0)).
rewrite dot_delta mxE leqnn G0 ltxx => pd; suff: false by [].
by apply: pd; apply/eqP => /matrixP /(_ I 0) /eqP; rewrite !mxE !eqxx oner_eq0.
Qed.

Lemma as_c_zero :
  every (fun t => qc_b t = 0) (quadratic_costs prog) ->
  as_c (assemble prog) = 0.
Proof.
move=> b0; rewrite as_c_selection; apply: big_every0 b0 _ => t ->.
by rewrite mulmx0.
Qed.

Lemma as_b_zero :
  every (fun t => lower_bound t = 0) (linear_equality_constraints prog) ->
  as_b (assemble prog) = 0.
Proof.
move=> /every_split lb0; apply/matrixP=> I j; rewrite ord1.
have [|pre [t [post [r [eqs I_r]]]]] :=
  @row_owner F Var (linear_equality_constraints prog) I.
  by rewrite -num_constraintsE.
by rewrite (as_b_row eqs I_r) (lb0 _ _ _ eqs) !mxE.
Qed.

End Untouched.

(** ** Problems without linear terms and right-hand sides *)
Section Homogeneous.

Variable F : realFieldType.
Variable E : EigenBackend F.
Variables n m : nat.
Variables (G : 'M[F]_n) (A : 'M[F]_(m, n)).

Hypothesis zero : solves_zero E.

Lemma range_space_zero : (range_space E G 0 A 0).1 = 0.
Proof.
case: zero => llt0 qr0 _.
by rewrite /range_space /= mulmx0 addr0 qr0 mulmx0 subr0 llt0.
Qed.

Lemma full_system_zero : full_system E G 0 A 0 = 0.
Proof.
case: zero => _ _ svd0.
by rewrite full_systemE oppr0 col_mx0 svd0 linear0.
Qed.

End Homogeneous.

Lemma kkt_point_zero (F : realFieldType) (E : EigenBackend F) n
    (P : Assembled F n) :
  solves_zero E -> as_c P = 0 -> as_b P = 0 -> kkt_point E P = 0.
Proof.
case: P => m G c A b /= zero -> ->; rewrite /kkt_point /=.
case: (LLT_info _ _); rewrite ?full_system_zero //.
exact: (range_space_zero G A zero).
Qed.

(** ** Solving again *)
Section Again.

Variable F : realFieldType.
Variable Var : Type.
Variable E : EigenBackend F.
Variable n : nat.



End Again.

(** ** Facts about the concrete programs *)
Section MoreConcrete.

Variable F : realFieldType.

Lemma positive_definite_semidefinite n (G : 'M[F]_n) :
  positive_definite G -> positive_semidefinite G.
Proof. by move=> pdG x; apply: positive_definite_ge0. Qed.

Lemma overlap_in_range : costs_in_range (overlap_program F).
Proof.
rewrite /costs_in_range /= andbT; apply/andP; split; apply/forallP => i.
  by rewrite /qc_index /= mxE.
by rewrite /qc_index /= mxE.
Qed.

Lemma overlap_symmetric :
  every (fun t => symmetric (Q t)) (quadratic_costs (overlap_program F)).
Proof.
split; first exact: symmetric_scalar.
by split=> //; apply: symmetric_scalar.
Qed.

Lemma overlap_semidefinite :
  every (fun t => positive_semidefinite (Q t))
        (quadratic_costs (overlap_program F)).
Proof.
have psd (k : nat) (a : nat) : positive_semidefinite (a.+1%:R%:M : 'M[F]_k).
  apply/positive_definite_semidefinite/positive_definite_scalar.
  by rewrite ltr0n.
by split; [exact: psd | split=> //; exact: psd].
Qed.

Lemma overlap_homogeneous :
  every (fun t => qc_b t = 0) (quadratic_costs (overlap_program F))
  /\ every (fun t => lower_bound t = 0)
           (linear_equality_constraints (overlap_program F)).
Proof. by []. Qed.

Lemma stacked_in_range : equalities_in_range (stacked_program F).
Proof.
rewrite /equalities_in_range /= andbT; apply/andP; split; apply/forallP => i.
  by rewrite /le_index /= mxE.
by rewrite /le_index /= mxE.
Qed.

Lemma stacked_distinct : equalities_distinct (stacked_program F).
Proof. by split; [|split] => // i j _; rewrite [i]ord1 [j]ord1. Qed.

Lemma example_costs_in_range
    (eqs : seq (LinearEqualityBinding F nat)) :
  costs_in_range (program 2 [:: overlap_term1 F] eqs).
Proof.
rewrite /costs_in_range /= andbT; apply/forallP => i.
by rewrite /qc_index /= mxE.
Qed.

Lemma example_equality_in_range
    (prog : MathematicalProgram F nat 2) :
  FindDecisionVariableIndex prog = id ->
  [forall i : 'I_(le_size (example_equality F)), (le_index prog i < 2)%N].
Proof. by move=> find; apply/forallP => i; rewrite /le_index find /= mxE. Qed.

Lemma example_equality_distinct (prog : MathematicalProgram F nat 2) :
  FindDecisionVariableIndex prog = id ->
  injective (@le_index F nat 2 prog (example_equality F)).
Proof.
move=> find i j; rewrite /le_index find /= !mxE => eq_ij.
exact: val_inj.
Qed.

Lemma degenerate_kkt_unit :
  block_mx (as_G (assemble (degenerate_program F)))
           (- (as_A (assemble (degenerate_program F)))^T)
           (as_A (assemble (degenerate_program F))) 0 \in unitmx.
Proof.
rewrite degenerate_program_assembles /=.
have [] // := @mulmx1_unit _ _ (block_mx 0 (- (1%:M : 'M[F]_2)^T) 1%:M 0)
                (block_mx 0 1%:M (- 1%:M) 0).
rewrite mulmx_block !mul0mx !mulmx0 trmx1 mulNmx mulmxN !mul1mx opprK.
by rewrite !addr0 !add0r -scalar_mx_block.
Qed.

Lemma example_costs_G (eqs : seq (LinearEqualityBinding F nat)) :
  as_G (assemble (program 2 [:: overlap_term1 F] eqs)) = 2%:R%:M.
Proof.
apply/matrixP=> I J; rewrite as_G_sum big_cons big_nil addr0 /scatter_Q /=.
rewrite !big_ord_recl !big_ord0 /= !mxE /= !addr0.
by case: I => [[|[|I]]] //= ltI; case: J => [[|[|J]]] //= ltJ;
   rewrite ?addr0 ?add0r.
Qed.

Lemma coeff_const_mx m (a : F) (i : nat) :
  (i < m)%N -> coeff (const_mx a : 'cV[F]_m) i 0 = a.
Proof.
by move=> lt_i; rewrite -[i]/(val (Ordinal lt_i)) (coeff_ord _ _ 0) mxE.
Qed.

Lemma example_equality_holds (prog : MathematicalProgram F nat 2) :
  FindDecisionVariableIndex prog = id ->
  binding_holds prog (example_equality F) (const_mx 2%:R^-1).
Proof.
move=> find; apply/matrixP=> i j; rewrite !mxE !big_ord_recl big_ord0 !mxE.
rewrite /le_index find /= !mxE /= !coeff_const_mx // addr0 !mul1r.
by rewrite -mulr2n -mulr_natl divff ?pnatr_eq0.
Qed.

Lemma redundant_distinct : equalities_distinct (redundant_program F).
Proof. by do 2![split; first exact: example_equality_distinct]. Qed.

Lemma redundant_in_range : equalities_in_range (redundant_program F).
Proof.
rewrite /equalities_in_range /= andbT.
by apply/andP; split; apply: (@example_equality_in_range (redundant_program F)).
Qed.

Lemma redundant_holds :
  exists z, every (fun t => binding_holds (redundant_program F) t z)
                  (linear_equality_constraints (redundant_program F)).
Proof.
exists (const_mx 2%:R^-1).
by do 2![split; first exact: example_equality_holds].
Qed.

Lemma redundant_feasible :
  exists z, as_A (assemble (redundant_program F)) *m z
            = as_b (assemble (redundant_program F)).
Proof.
have [z holds] := redundant_holds.
by exists z; apply/(feasible_iff _ redundant_distinct).
Qed.

Lemma redundant_symmetric_costs :
  every (fun t => symmetric (Q t)) (quadratic_costs (redundant_program F)).
Proof. by split=> //; apply: symmetric_scalar. Qed.

Lemma redundant_symmetric :
  symmetric (as_G (assemble (redundant_program F))).
Proof. by rewrite [as_G _]example_costs_G; apply: symmetric_scalar. Qed.

Lemma redundant_positive_definite :
  positive_definite (as_G (assemble (redundant_program F))).
Proof.
rewrite [as_G _]example_costs_G; apply: positive_definite_scalar.
by rewrite ltr0n.
Qed.

Lemma redundant_not_row_free :
  ~~ row_free (as_A (assemble (redundant_program F))).
Proof.
apply/negP => free; pose u : 'rV[F]_2 := delta_mx 0 0 - delta_mx 0 1.
have u0 : u = 0.
  apply: (row_free_inj free); rewrite mul0mx.
  apply/matrixP=> i J; rewrite [i]ord1 mulmxBl -!rowE !mxE.
  have [-> _] := @as_row F nat 2 (redundant_program F) [::]
                   (example_equality F) [:: example_equality F] 0 0 J erefl
                   erefl.
  have [-> _] := @as_row F nat 2 (redundant_program F)
                   [:: example_equality F] (example_equality F) [::] 1 0 J
                   erefl erefl.
  by rewrite subrr.
by have /matrixP /(_ 0 0) /eqP := u0; rewrite !mxE /= subr0 oner_eq0.
Qed.

Lemma partial_cost_in_range : costs_in_range (partial_cost_program F).
Proof.
rewrite /costs_in_range /= andbT; apply/forallP => i.
by rewrite /qc_index /= mxE.
Qed.

Lemma partial_cost_without : without_cost (partial_cost_program F) 1.
Proof. by split=> // i; rewrite /qc_index /= mxE. Qed.

End MoreConcrete.

(** * Further properties of the solver *)

(** X1.  The assembled objective is the sum of the costs of the bindings:
    for every point [x], [1/2 x' G x + c' x] with the assembled [G] and [c]
    equals the sum over the cost bindings of [1/2 z' Q z + b' z], where [z]
    holds the entries of [x] at the global indices of the binding's
    variables. *)
Theorem assembled_objective_is_sum_of_costs :
  forall (F : realFieldType) (Var : Type) n
         (prog : MathematicalProgram F Var n) (x : 'cV[F]_n),
    costs_in_range prog ->
    objective (as_G (assemble prog)) (as_c (assemble prog)) x
    = \sum_(binding <- quadratic_costs prog) binding_cost prog binding x.
Proof. by move=> F Var n prog x _; apply: objective_sum. Qed.

Lemma assembled_objective_is_sum_of_costs_witness :
  let prog := overlap_program rat in
  let x : 'cV[rat]_2 := const_mx 1 in
  costs_in_range prog
  /\ objective (as_G (assemble prog)) (as_c (assemble prog)) x
     = \sum_(binding <- quadratic_costs prog) binding_cost prog binding x.
Proof.
split; first exact: overlap_in_range.
exact: (assembled_objective_is_sum_of_costs (prog := overlap_program rat)
          (const_mx 1) (@overlap_in_range rat)).
Defined.

(** X2.  When the matrix [Q] of every cost binding is symmetric, so is the
    assembled [G] (the matrix the Cholesky factorisation is given). *)
Theorem assembled_hessian_symmetric :
  forall (F : realFieldType) (Var : Type) n
         (prog : MathematicalProgram F Var n),
    costs_in_range prog ->
    every (fun binding => symmetric (Q binding)) (quadratic_costs prog) ->
    symmetric (as_G (assemble prog)).
Proof. by move=> F Var n prog _; apply: as_G_symmetric. Qed.

Lemma assembled_hessian_symmetric_witness :
  let prog := overlap_program rat in
  (costs_in_range prog
   /\ every (fun binding => symmetric (Q binding)) (quadratic_costs prog))
  /\ symmetric (as_G (assemble prog)).
Proof.
split; first by split; [exact: overlap_in_range | exact: overlap_symmetric].
exact: (assembled_hessian_symmetric (@overlap_in_range rat)
          (@overlap_symmetric rat)).
Defined.

(** X3.  Assembly keeps convexity: when the matrix [Q] of every cost
    binding is positive semidefinite, so is the assembled [G]. *)
Theorem assembled_hessian_convex :
  forall (F : realFieldType) (Var : Type) n
         (prog : MathematicalProgram F Var n),
    costs_in_range prog ->
    every (fun binding => positive_semidefinite (Q binding))
          (quadratic_costs prog) ->
    positive_semidefinite (as_G (assemble prog)).
Proof. by move=> F Var n prog _; apply: as_G_semidefinite. Qed.

Lemma assembled_hessian_convex_witness :
  let prog := overlap_program rat in
  (costs_in_range prog
   /\ every (fun binding => positive_semidefinite (Q binding))
            (quadratic_costs prog))
  /\ positive_semidefinite (as_G (assemble prog)).
Proof.
split; first by split; [exact: overlap_in_range | exact: overlap_semidefinite].
exact: (assembled_hessian_convex (@overlap_in_range rat)
          (@overlap_semidefinite rat)).
Defined.

(** X4.  When no constraint binding lists a variable twice, a point [x]
    satisfies the assembled system [A x = b] exactly when it satisfies the
    constraint [A_t z = rhs_t] of every binding, [z] holding the entries of
    [x] at the global indices of the binding's variables. *)
Theorem assembled_constraints_hold_iff :
  forall (F : realFieldType) (Var : Type) n
         (prog : MathematicalProgram F Var n) (x : 'cV[F]_n),
    equalities_in_range prog -> equalities_distinct prog ->
    as_A (assemble prog) *m x = as_b (assemble prog)
    <-> every (fun binding => binding_holds prog binding x)
              (linear_equality_constraints prog).
Proof. by move=> F Var n prog x _; apply: feasible_iff. Qed.

Lemma assembled_constraints_hold_iff_witness :
  let prog := stacked_program rat in
  let x : 'cV[rat]_2 := const_mx 1 in
  (equalities_in_range prog /\ equalities_distinct prog)
  /\ (as_A (assemble prog) *m x = as_b (assemble prog)
      <-> every (fun binding => binding_holds prog binding x)
                (linear_equality_constraints prog)).
Proof.
split; first by split; [exact: stacked_in_range | exact: stacked_distinct].
exact: (assembled_constraints_hold_iff (prog := stacked_program rat)
          (const_mx 1) (@stacked_in_range rat) (@stacked_distinct rat)).
Defined.

(** X5.  With a symmetric positive definite [G] and independent rows of
    [A], the point [Solve] stores is feasible and is the minimiser of the
    objective over the feasible set: no feasible point has a smaller
    objective, and every other feasible point has a larger one. *)
Theorem range_space_minimizes :
  forall (F : realFieldType) (Var : Type) (E : EigenBackend F) n
         (prog : MathematicalProgram F Var n),
    LLT_complete E -> LLT_solves E -> QR_solves E ->
    supported prog ->
    let P := assemble prog in
    symmetric (as_G P) -> positive_definite (as_G P) -> row_free (as_A P) ->
    exists prog',
      Solve E prog = Some (kSolutionFound, prog')
      /\ let x := decision_variable_values prog' in
         as_A P *m x = as_b P
         /\ forall z, as_A P *m z = as_b P ->
              objective (as_G P) (as_c P) x <= objective (as_G P) (as_c P) z
              /\ (z != x ->
                  objective (as_G P) (as_c P) x
                  < objective (as_G P) (as_c P) z).
Proof.
move=> F Var E n prog complete solves qr ok P symG pdG freeA.
have info : LLT_info E (as_G P) = Success.
  by apply: complete; rewrite selfadjoint_lower_sym.
have kkt := range_space_kkt (as_c P) (as_b P) solves info symG qr pdG freeA.
rewrite SolveE ok kkt_point_success //; eexists; split; first by [].
rewrite written_values; split; first by case: kkt.
move=> z Az; split; last exact: kkt_strict_minimizer kkt Az.
exact: kkt_minimizer (positive_definite_semidefinite pdG) kkt Az.
Qed.

Lemma range_space_minimizes_witness :
  let E := exact_backend rat in
  let prog := example_program rat in
  let P := assemble prog in
  ([/\ LLT_complete E, LLT_solves E, QR_solves E & supported prog]
   /\ [/\ symmetric (as_G P), positive_definite (as_G P) & row_free (as_A P)])
  /\ exists prog',
       Solve E prog = Some (kSolutionFound, prog')
       /\ let x := decision_variable_values prog' in
          as_A P *m x = as_b P
          /\ forall z, as_A P *m z = as_b P ->
               objective (as_G P) (as_c P) x <= objective (as_G P) (as_c P) z
               /\ (z != x ->
                   objective (as_G P) (as_c P) x
                   < objective (as_G P) (as_c P) z).
Proof.
split.
  split; split; [exact: exact_LLT_complete | exact: exact_LLT_solves
    | exact: exact_QR_solves | exact: isT | exact: example_symmetric
    | exact: example_positive_definite | exact: example_row_free].
exact: (range_space_minimizes (prog := example_program rat)
          (@exact_LLT_complete rat) (@exact_LLT_solves rat)
          (@exact_QR_solves rat) isT (@example_symmetric rat)
          (@example_positive_definite rat) (@example_row_free rat)).
Defined.

(** X6.  When the Cholesky factorisation does not succeed and the matrix
    [[G, -A'; A, 0]] of the full system is nonsingular, the point [Solve]
    stores satisfies the KKT conditions with the last [m] entries of the
    least-squares solution as multipliers; if [G] is moreover symmetric
    positive semidefinite, the point minimises the objective over the
    feasible set. *)
Theorem full_system_solves_KKT :
  forall (F : realFieldType) (Var : Type) (E : EigenBackend F) n
         (prog : MathematicalProgram F Var n),
    SVD_solves E ->
    supported prog ->
    let P := assemble prog in
    LLT_info E (as_G P) <> Success ->
    block_mx (as_G P) (- (as_A P)^T) (as_A P) 0 \in unitmx ->
    exists prog' y,
      Solve E prog = Some (kSolutionFound, prog')
      /\ let x := decision_variable_values prog' in
         KKT (as_G P) (as_c P) (as_A P) (as_b P) x y
         /\ (symmetric (as_G P) -> positive_semidefinite (as_G P) ->
             forall z, as_A P *m z = as_b P ->
               objective (as_G P) (as_c P) x
               <= objective (as_G P) (as_c P) z).
Proof.
move=> F Var E n prog svd ok P info unitK.
have kkt := full_system_kkt (as_c P) (as_b P) svd unitK.
rewrite SolveE ok kkt_point_failure //; eexists; eexists.
split; first by [].
rewrite written_values; split=> [|symG psdG z]; first exact: kkt.
exact: kkt_minimizer kkt.
Qed.

Lemma full_system_solves_KKT_witness :
  let E := exact_backend rat in
  let prog := degenerate_program rat in
  let P := assemble prog in
  [/\ SVD_solves E, supported prog, LLT_info E (as_G P) <> Success
    & block_mx (as_G P) (- (as_A P)^T) (as_A P) 0 \in unitmx]
  /\ exists prog' y,
       Solve E prog = Some (kSolutionFound, prog')
       /\ let x := decision_variable_values prog' in
          KKT (as_G P) (as_c P) (as_A P) (as_b P) x y
          /\ (symmetric (as_G P) -> positive_semidefinite (as_G P) ->
              forall z, as_A P *m z = as_b P ->
                objective (as_G P) (as_c P) x
                <= objective (as_G P) (as_c P) z).
Proof.
have info := degenerate_not_success (@exact_LLT_sound rat).
split.
  split; [exact: exact_SVD_solves | exact: isT | exact: info
    | exact: degenerate_kkt_unit].
exact: (full_system_solves_KKT (prog := degenerate_program rat)
          (@exact_SVD_solves rat) isT info (@degenerate_kkt_unit rat)).
Defined.

(** X7.  On a symmetric positive definite [G] and independent rows of [A]
    the full system gives the point of the range-space strategy: forcing
    the fallback does not change the solution. *)
Theorem strategies_agree_on_definite :
  forall (F : realFieldType) (E : EigenBackend F) n m
         (G : 'M[F]_n) (c : 'cV[F]_n) (A : 'M[F]_(m, n)) (b : 'cV[F]_m),
    LLT_solves E -> QR_solves E -> SVD_solves E ->
    LLT_info E G = Success ->
    symmetric G -> positive_definite G -> row_free A ->
    full_system E G c A b = (range_space E G c A b).1.
Proof.
move=> F E n m G c A b llt qr svd ok symG pdG freeA.
by have [] := strategies_agree c b llt qr svd ok symG pdG freeA.
Qed.

Lemma strategies_agree_on_definite_witness :
  let E := exact_backend rat in
  let P := assemble (example_program rat) in
  ([/\ LLT_solves E, QR_solves E, SVD_solves E
     & LLT_info E (as_G P) = Success]
   /\ [/\ symmetric (as_G P), positive_definite (as_G P) & row_free (as_A P)])
  /\ full_system E (as_G P) (as_c P) (as_A P) (as_b P)
     = (range_space E (as_G P) (as_c P) (as_A P) (as_b P)).1.
Proof.
have info : LLT_info (exact_backend rat)
              (as_G (assemble (example_program rat))) = Success.
  apply: exact_LLT_complete.
  rewrite (selfadjoint_lower_sym (@example_symmetric rat)).
  exact: example_positive_definite.
split.
  split; split; [exact: exact_LLT_solves | exact: exact_QR_solves
    | exact: exact_SVD_solves | exact: info | exact: example_symmetric
    | exact: example_positive_definite | exact: example_row_free].
exact: (strategies_agree_on_definite
          (as_c (assemble (example_program rat)))
          (as_b (assemble (example_program rat)))
          (@exact_LLT_solves rat) (@exact_QR_solves rat)
          (@exact_SVD_solves rat) info (@example_symmetric rat)
          (@example_positive_definite rat) (@example_row_free rat)).
Defined.

(** X8.  A decision variable that no cost binding mentions leaves a zero on
    the diagonal of [G]: the Cholesky factorisation does not succeed and
    [Solve] runs the full system. *)
Theorem variable_without_cost_forces_fallback :
  forall (F : realFieldType) (Var : Type) (E : EigenBackend F) n
         (prog : MathematicalProgram F Var n) (I : 'I_n),
    LLT_sound E ->
    supported prog -> costs_in_range prog -> without_cost prog I ->
    let P := assemble prog in
    [/\ as_G P I I = 0, LLT_info E (as_G P) <> Success
      & Solve E prog
        = Some (kSolutionFound,
                written prog (as_G P) (as_c P)
                  (full_system E (as_G P) (as_c P) (as_A P) (as_b P)))].
Proof.
move=> F Var E n prog I sound ok _ noI P.
have info : LLT_info E (as_G P) <> Success.
  by move=> /sound; apply: without_cost_not_definite noI.
split=> //; first exact: without_cost_diag.
by rewrite SolveE ok kkt_point_failure.
Qed.

Lemma variable_without_cost_forces_fallback_witness :
  let E := exact_backend rat in
  let prog := partial_cost_program rat in
  let P := assemble prog in
  [/\ LLT_sound E, supported prog, costs_in_range prog & without_cost prog 1]
  /\ [/\ as_G P 1 1 = 0, LLT_info E (as_G P) <> Success
       & Solve E prog
         = Some (kSolutionFound,
                 written prog (as_G P) (as_c P)
                   (full_system E (as_G P) (as_c P) (as_A P) (as_b P)))].
Proof.
split.
  split; [exact: exact_LLT_sound | exact: isT | exact: partial_cost_in_range
    | exact: partial_cost_without].
exact: (variable_without_cost_forces_fallback
          (prog := partial_cost_program rat) (@exact_LLT_sound rat) isT
          (@partial_cost_in_range rat) (@partial_cost_without rat)).
Defined.

(** X9.  When every cost binding has [b = 0] and every constraint binding
    has a zero right-hand side, [Solve] stores [x = 0] and reports the cost
    0, whichever strategy runs (the solves are linear in their right-hand
    side). *)
Theorem homogeneous_problem_solved_by_zero :
  forall (F : realFieldType) (Var : Type) (E : EigenBackend F) n
         (prog : MathematicalProgram F Var n),
    solves_zero E ->
    supported prog ->
    every (fun binding => qc_b binding = 0) (quadratic_costs prog) ->
    every (fun binding => lower_bound binding = 0)
          (linear_equality_constraints prog) ->
    exists prog',
      [/\ Solve E prog = Some (kSolutionFound, prog'),
          decision_variable_values prog' = 0
        & optimal_cost prog' = 0].
Proof.
move=> F Var E n prog zero ok b0 lb0.
rewrite SolveE ok (kkt_point_zero zero (as_c_zero b0) (as_b_zero lb0)).
by eexists; split; rewrite // written_cost dot0l mulr0.
Qed.

Lemma homogeneous_problem_solved_by_zero_witness :
  let E := exact_backend rat in
  let prog := overlap_program rat in
  [/\ solves_zero E, supported prog,
      every (fun binding => qc_b binding = 0) (quadratic_costs prog)
    & every (fun binding => lower_bound binding = 0)
            (linear_equality_constraints prog)]
  /\ exists prog',
       [/\ Solve E prog = Some (kSolutionFound, prog'),
           decision_variable_values prog' = 0
         & optimal_cost prog' = 0].
Proof.
split.
  split; [exact: exact_solves_zero | exact: isT
    | exact: (proj1 (@overlap_homogeneous rat))
    | exact: (proj2 (@overlap_homogeneous rat))].
exact: (homogeneous_problem_solved_by_zero (prog := overlap_program rat)
          (@exact_solves_zero rat) isT (proj1 (@overlap_homogeneous rat))
          (proj2 (@overlap_homogeneous rat))).
Defined.



(** X11.  Whatever the strategy, the cost [Solve] reports is the objective
    at the stored point less half of the linear term [c' x]; it is the
    objective itself when every cost binding has [b = 0]. *)
Theorem reported_cost_and_objective :
  forall (F : realFieldType) (Var : Type) (E : EigenBackend F) n
         (prog : MathematicalProgram F Var n),
    supported prog ->
    let P := assemble prog in
    exists prog',
      Solve E prog = Some (kSolutionFound, prog')
      /\ let x := decision_variable_values prog' in
         optimal_cost prog'
           = objective (as_G P) (as_c P) x - 2%:R^-1 * dot (as_c P) x
         /\ (every (fun binding => qc_b binding = 0) (quadratic_costs prog) ->
             optimal_cost prog' = objective (as_G P) (as_c P) x).
Proof.
move=> F Var E n prog ok P; rewrite SolveE ok; eexists; split; first by [].
rewrite written_cost written_values reported_cost; split=> // b0.
by rewrite (as_c_zero b0) dot0l mulr0 subr0.
Qed.

Lemma reported_cost_and_objective_witness :
  let E := exact_backend rat in
  let prog := example_program rat in
  let P := assemble prog in
  supported prog
  /\ exists prog',
       Solve E prog = Some (kSolutionFound, prog')
       /\ let x := decision_variable_values prog' in
          optimal_cost prog'
            = objective (as_G P) (as_c P) x - 2%:R^-1 * dot (as_c P) x
          /\ (every (fun binding => qc_b binding = 0)
                    (quadratic_costs prog) ->
              optimal_cost prog' = objective (as_G P) (as_c P) x).
Proof.
split; first exact: isT.
exact: (reported_cost_and_objective (exact_backend rat)
          (prog := example_program rat) isT).
Defined.

(** X12.  The range-space strategy tolerates redundant constraints: with a
    symmetric positive definite [G] and constraints that some point
    satisfies, whatever the rank of [A], the point [Solve] stores is
    feasible, satisfies the KKT conditions with the computed multipliers
    and minimises the objective over the feasible set. *)
Theorem range_space_tolerates_redundancy :
  forall (F : realFieldType) (Var : Type) (E : EigenBackend F) n
         (prog : MathematicalProgram F Var n),
    LLT_complete E -> LLT_solves E -> QR_consistent E ->
    supported prog ->
    let P := assemble prog in
    symmetric (as_G P) -> positive_definite (as_G P) ->
    (exists z, as_A P *m z = as_b P) ->
    exists prog',
      Solve E prog = Some (kSolutionFound, prog')
      /\ let x := decision_variable_values prog' in
         let y := (range_space E (as_G P) (as_c P) (as_A P) (as_b P)).2 in
         KKT (as_G P) (as_c P) (as_A P) (as_b P) x y
         /\ forall z, as_A P *m z = as_b P ->
              objective (as_G P) (as_c P) x <= objective (as_G P) (as_c P) z
              /\ (z != x ->
                  objective (as_G P) (as_c P) x
                  < objective (as_G P) (as_c P) z).
Proof.
move=> F Var E n prog complete solves qr ok P symG pdG feasible.
have info : LLT_info E (as_G P) = Success.
  by apply: complete; rewrite selfadjoint_lower_sym.
have kkt := range_space_kkt_consistent (as_c P) solves info symG qr pdG
              feasible.
rewrite SolveE ok kkt_point_success //; eexists; split; first by [].
rewrite written_values; split=> // z Az.
split; last exact: kkt_strict_minimizer kkt Az.
exact: kkt_minimizer (positive_definite_semidefinite pdG) kkt Az.
Qed.

Lemma range_space_tolerates_redundancy_witness :
  let E := lsq_backend rat in
  let prog := redundant_program rat in
  let P := assemble prog in
  ([/\ LLT_complete E, LLT_solves E, QR_consistent E & supported prog]
   /\ [/\ symmetric (as_G P), positive_definite (as_G P),
          exists z, as_A P *m z = as_b P & ~~ row_free (as_A P)])
  /\ exists prog',
       Solve E prog = Some (kSolutionFound, prog')
       /\ let x := decision_variable_values prog' in
          let y := (range_space E (as_G P) (as_c P) (as_A P) (as_b P)).2 in
          KKT (as_G P) (as_c P) (as_A P) (as_b P) x y
          /\ forall z, as_A P *m z = as_b P ->
               objective (as_G P) (as_c P) x <= objective (as_G P) (as_c P) z
               /\ (z != x ->
                   objective (as_G P) (as_c P) x
                   < objective (as_G P) (as_c P) z).
Proof.
split.
  split; split; [exact: lsq_LLT_complete | exact: lsq_LLT_solves
    | exact: lsq_QR_consistent | exact: isT | exact: redundant_symmetric
    | exact: redundant_positive_definite | exact: redundant_feasible
    | exact: redundant_not_row_free].
exact: (range_space_tolerates_redundancy (prog := redundant_program rat)
          (@lsq_LLT_complete rat) (@lsq_LLT_solves rat)
          (@lsq_QR_consistent rat) isT (@redundant_symmetric rat)
          (@redundant_positive_definite rat) (@redundant_feasible rat)).
Defined.

(** X13.  End to end: when the bindings are well formed (indices in range,
    no constraint binding lists a variable twice), every [Q] is symmetric,
    the assembled [G] is positive definite and some point satisfies every
    constraint binding, then the point [Solve] stores satisfies every
    constraint binding and, among all points that do, has the least sum of
    the costs of the cost bindings. *)
Theorem Solve_minimizes_sum_of_costs :
  forall (F : realFieldType) (Var : Type) (E : EigenBackend F) n
         (prog : MathematicalProgram F Var n),
    LLT_complete E -> LLT_solves E -> QR_consistent E ->
    supported prog ->
    costs_in_range prog -> equalities_in_range prog ->
    equalities_distinct prog ->
    every (fun binding => symmetric (Q binding)) (quadratic_costs prog) ->
    positive_definite (as_G (assemble prog)) ->
    (exists z, every (fun binding => binding_holds prog binding z)
                     (linear_equality_constraints prog)) ->
    exists prog',
      Solve E prog = Some (kSolutionFound, prog')
      /\ let x := decision_variable_values prog' in
         every (fun binding => binding_holds prog binding x)
               (linear_equality_constraints prog)
         /\ forall z,
              every (fun binding => binding_holds prog binding z)
                    (linear_equality_constraints prog) ->
              \sum_(binding <- quadratic_costs prog)
                 binding_cost prog binding x
              <= \sum_(binding <- quadratic_costs prog)
                   binding_cost prog binding z.
Proof.
move=> F Var E n prog complete solves qr ok _ _ distinct symQ pdG [z0 holds0].
pose P := assemble prog.
have symG : symmetric (as_G P) by apply: as_G_symmetric.
have feasible : exists z, as_A P *m z = as_b P.
  by exists z0; apply/feasible_iff.
have info : LLT_info E (as_G P) = Success.
  by apply: complete; rewrite selfadjoint_lower_sym.
have kkt := range_space_kkt_consistent (as_c P) solves info symG qr pdG
              feasible.
rewrite SolveE ok kkt_point_success //; eexists; split; first by [].
rewrite written_values; split; first by apply/feasible_iff => //; case: kkt.
move=> z /(feasible_iff _ distinct) Az; rewrite -!objective_sum.
exact: kkt_minimizer (positive_definite_semidefinite pdG) kkt Az.
Qed.

Lemma Solve_minimizes_sum_of_costs_witness :
  let E := lsq_backend rat in
  let prog := redundant_program rat in
  ([/\ LLT_complete E, LLT_solves E, QR_consistent E & supported prog]
   /\ [/\ costs_in_range prog, equalities_in_range prog,
          equalities_distinct prog,
          every (fun binding => symmetric (Q binding)) (quadratic_costs prog)
        & positive_definite (as_G (assemble prog))]
   /\ exists z, every (fun binding => binding_holds prog binding z)
                      (linear_equality_constraints prog))
  /\ exists prog',
       Solve E prog = Some (kSolutionFound, prog')
       /\ let x := decision_variable_values prog' in
          every (fun binding => binding_holds prog binding x)
                (linear_equality_constraints prog)
          /\ forall z,
               every (fun binding => binding_holds prog binding z)
                     (linear_equality_constraints prog) ->
               \sum_(binding <- quadratic_costs prog)
                  binding_cost prog binding x
               <= \sum_(binding <- quadratic_costs prog)
                    binding_cost prog binding z.
Proof.
split.
  split; first by split; [exact: lsq_LLT_complete | exact: lsq_LLT_solves
    | exact: lsq_QR_consistent | exact: isT].
  split; first by split; [exact: example_costs_in_range
    | exact: redundant_in_range | exact: redundant_distinct
    | exact: redundant_symmetric_costs | exact: redundant_positive_definite].
  exact: redundant_holds.
exact: (Solve_minimizes_sum_of_costs (prog := redundant_program rat)
          (@lsq_LLT_complete rat) (@lsq_LLT_solves rat)
          (@lsq_QR_consistent rat) isT (@example_costs_in_range rat _)
          (@redundant_in_range rat) (@redundant_distinct rat)
          (@redundant_symmetric_costs rat) (@redundant_positive_definite rat)
          (@redundant_holds rat)).
Defined.
